(** * ObitFinder pipeline CRM: the pipeline engine, the card assembler and
      the pager, embedded from [app.py] and [app_legacy.py].

    The Supabase store is modelled as an explicit state (the [contatos]
    table as a finite map keyed by contact id, the [relacionamentos] table
    as a list of rows in the store's result order).  Every [.execute()] is
    one round trip that may raise; the store state carries the schedule of
    such failures and the trace of the calls made, so that the engine code
    runs as a state-and-exception computation. *)

From Stdlib Require Import ZArith.
From stdpp Require Import gmap strings list fin_maps.

Local Open Scope string_scope.

(** ** Python values used by the code *)

Module Py.

(** A JSON scalar of a text column: [None] is Python's [None] (SQL NULL). *)
Definition value : Type := option string.

(** A row returned by the store: a Python dict from column names to values. *)
Abbreviation row := (gmap string value).

(** [d.get(key, default)] *)
Definition get (d : row) (key : string) (default : string) : value :=
  match d !! key with
  | Some v => v
  | None => Some default
  end.

(** [v or ''] on a value that is a string or [None]. *)
Definition or_empty (v : value) : string :=
  match v with
  | Some s => s
  | None => ""
  end.

(** Truth value of a dict: empty dicts are falsy. *)
Definition truthy_row (d : row) : bool := negb (bool_decide (d = ∅)).

(** [v not in ['Won', 'Lost']] *)
Definition not_in (v : value) (l : list string) : bool :=
  match v with
  | Some s => negb (bool_decide (s ∈ l))
  | None => true
  end.

End Py.

(** ** The store *)

Module Store.

(** A row of table [contatos] (the id is the key of the table). *)
Record contato := Contato {
  nome : Py.value;
  telefone_1 : Py.value;
  telefone_2 : Py.value;
  telefone_3 : Py.value;
  telefone_4 : Py.value;
  status : Py.value;
  notes : Py.value;
  status_updated_at : Py.value
}.

(** A row of the junction table [relacionamentos]. *)
Record relacionamento := Relacionamento {
  rel_id : string;
  caso_id : string;
  contato_id : string;
  tipo_parentesco : Py.value
}.

(** The query-builder calls that reach the store, as the code issues them. *)
Inductive call :=
| Select (table columns eq_column eq_value : string)
| SelectSingle (table columns eq_column eq_value : string)
| Update (table : string) (fields : list (string * Py.value))
         (eq_column eq_value : string).

Inductive exn := APIError | KeyError.

Inductive outcome (A : Type) :=
| Ret (a : A)
| Raise (e : exn).
Arguments Ret {A} a.
Arguments Raise {A} e.

(** The state of the external store together with what the environment will
    do to the next round trips ([faults]: [true] makes that [.execute()]
    raise; an exhausted schedule means no more failures) and the trace of
    the calls made so far. *)
Record store := MkStore {
  contatos : gmap string contato;
  relacionamentos : list relacionamento;
  faults : list bool;
  calls : list call
}.

(** Computations over the store that may raise. *)
Definition M (A : Type) : Type := store → outcome A * store.

#[global] Instance M_ret : MRet M := λ A a s, (Ret a, s).

#[global] Instance M_bind : MBind M := λ A B f m s,
  match m s with
  | (Ret a, s') => f a s'
  | (Raise e, s') => (Raise e, s')
  end.

Definition raise {A} (e : exn) : M A := λ s, (Raise e, s).

(** [try: m  except Exception: h] *)
Definition try_except {A} (m : M A) (h : M A) : M A := λ s,
  match m s with
  | (Ret a, s') => (Ret a, s')
  | (Raise _, s') => h s'
  end.

(** One [.execute()]: the call is recorded, the next entry of the failure
    schedule is consumed, and the call raises when that entry says so. *)
Definition execute (c : call) : M unit := λ s,
  let s' := MkStore (contatos s) (relacionamentos s) (tail (faults s))
                    (calls s ++ [c]) in
  match faults s with
  | true :: _ => (Raise APIError, s')
  | _ => (Ret tt, s')
  end.

Definition column (c : contato) (col : string) : option Py.value :=
  if decide (col = "nome") then Some (nome c)
  else if decide (col = "telefone_1") then Some (telefone_1 c)
  else if decide (col = "telefone_2") then Some (telefone_2 c)
  else if decide (col = "telefone_3") then Some (telefone_3 c)
  else if decide (col = "telefone_4") then Some (telefone_4 c)
  else if decide (col = "status") then Some (status c)
  else if decide (col = "notes") then Some (notes c)
  else if decide (col = "status_updated_at") then Some (status_updated_at c)
  else None.

(** The dict the store returns for a row when [cols] are selected: it has
    the selected columns and no others. *)
Definition project (cols : list string) (c : contato) : Py.row :=
  foldr (λ col d, match column c col with
                  | Some v => <[col := v]> d
                  | None => d
                  end) ∅ cols.

Definition set_column (c : contato) (f : string * Py.value) : contato :=
  let '(col, v) := f in
  if decide (col = "status") then
    Contato (nome c) (telefone_1 c) (telefone_2 c) (telefone_3 c)
            (telefone_4 c) v (notes c) (status_updated_at c)
  else if decide (col = "notes") then
    Contato (nome c) (telefone_1 c) (telefone_2 c) (telefone_3 c)
            (telefone_4 c) (status c) v (status_updated_at c)
  else if decide (col = "status_updated_at") then
    Contato (nome c) (telefone_1 c) (telefone_2 c) (telefone_3 c)
            (telefone_4 c) (status c) (notes c) v
  else c.

Definition apply_fields (fields : list (string * Py.value)) (c : contato)
  : contato := foldl set_column c fields.

(** [client.table('relacionamentos').select('caso_id')
      .eq('contato_id', id).execute().data], as the list of the selected
    column's values in the store's result order. *)
Definition select_casos_of_contato (id : string) : M (list string) := λ s,
  match execute (Select "relacionamentos" "caso_id" "contato_id" id) s with
  | (Ret _, s') =>
      (Ret (caso_id <$> filter (λ r, contato_id r = id) (relacionamentos s')),
       s')
  | (Raise e, s') => (Raise e, s')
  end.

(** [client.table('relacionamentos').select('contato_id')
      .eq('caso_id', id).execute().data] *)
Definition select_contatos_of_caso (id : string) : M (list string) := λ s,
  match execute (Select "relacionamentos" "contato_id" "caso_id" id) s with
  | (Ret _, s') =>
      (Ret (contato_id <$> filter (λ r, caso_id r = id) (relacionamentos s')),
       s')
  | (Raise e, s') => (Raise e, s')
  end.

(** [client.table('contatos').select(cols).eq('id', id).single().execute()
      .data]: [.single()] raises when no row matches. *)
Definition select_contato_single (cols : string) (col_list : list string)
    (id : string) : M Py.row := λ s,
  match execute (SelectSingle "contatos" cols "id" id) s with
  | (Ret _, s') =>
      match contatos s' !! id with
      | Some c => (Ret (project col_list c), s')
      | None => (Raise APIError, s')
      end
  | (Raise e, s') => (Raise e, s')
  end.

(** [client.table('contatos').update(fields).eq('id', id).execute()]: a
    failed round trip leaves the table as it was; an update that matches no
    row succeeds and changes nothing. *)
Definition update_contato (fields : list (string * Py.value)) (id : string)
  : M unit := λ s,
  match execute (Update "contatos" fields "id" id) s with
  | (Ret _, s') =>
      (Ret tt, MkStore (alter (apply_fields fields) id (contatos s'))
                       (relacionamentos s') (faults s') (calls s'))
  | (Raise e, s') => (Raise e, s')
  end.

End Store.

(** ** The pipeline engine ([app.py], write-back functions) *)

Module Engine.

Import Store.

(** [PIPELINE_STAGES] *)
Definition PIPELINE_STAGES : list string :=
  ["New"; "Attempted"; "In Progress"; "Won"; "Lost"].

(** What [datetime.now()] renders to during one operation:
    [.isoformat()] and [.strftime('%Y-%m-%d %H:%M')]. *)
Record clock := Clock {
  isoformat : string;
  strftime_minute : string
}.

(** The messages [move_to_stage] returns.  [MarkedWon closed] stands for
    the f-string "<check mark> Marked as Won! {closed} other relative(s)
    automatically closed.", [MovedTo stage] for "<check mark> Moved to
    {stage}" and [FailedUpdate] for "Failed to update status". *)
Inductive message :=
| MarkedWon (closed : nat)
| MovedTo (stage : string)
| FailedUpdate.

(** The audit line the cascade adds to the notes it writes. *)
Definition audit_line (now : clock) : string :=
  String (Ascii.ascii_of_nat 10) "[Auto-closed: Another relative won on "
    +:+ strftime_minute now +:+ "]".

Definition update_contact_status (contato_id new_status : string)
    (now : clock) : M bool :=
  try_except
    (update_contato [("status", Some new_status);
                     ("status_updated_at", Some (isoformat now))] contato_id;;
     mret true)
    (mret false).

Definition update_contact_notes (contato_id notes : string) : M bool :=
  try_except
    (update_contato [("notes", Some notes)] contato_id;;
     mret true)
    (mret false).

(** The body of the loop of [one_win_close_all] for one relationship row. *)
Definition close_sibling (winner_contato_id : string) (now : clock)
    (other_contato_id : string) (closed_count : nat) : M nat :=
  if decide (other_contato_id = winner_contato_id) then mret closed_count
  else
    data ← select_contato_single "status" ["status"] other_contato_id;
    if Py.truthy_row data return M nat then
      match data !! "status" with
      | None => raise KeyError
      | Some st =>
          if Py.not_in st ["Won"; "Lost"] then
            update_contato
              [("status", Some "Lost");
               ("notes", Some (Py.or_empty (Py.get data "notes" "")
                               +:+ audit_line now));
               ("status_updated_at", Some (isoformat now))]
              other_contato_id;;
            mret (S closed_count)
          else mret closed_count
      end
    else mret closed_count.

Fixpoint close_loop (winner_contato_id : string) (now : clock)
    (all_rels : list string) (closed_count : nat) : M nat :=
  match all_rels with
  | [] => mret closed_count
  | other_contato_id :: rest =>
      closed_count' ← close_sibling winner_contato_id now other_contato_id
                                    closed_count;
      close_loop winner_contato_id now rest closed_count'
  end.

Definition one_win_close_all (winner_contato_id : string) (now : clock)
  : M nat :=
  rel_resp ← select_casos_of_contato winner_contato_id;
  match rel_resp with
  | [] => mret 0
  | caso_id :: _ =>
      all_rels ← select_contatos_of_caso caso_id;
      close_loop winner_contato_id now all_rels 0
  end.

Definition move_to_stage (contato_id new_status : string) (now : clock)
  : M (bool * message) :=
  if decide (new_status = "Won") then
    success ← update_contact_status contato_id "Won" now;
    if success : bool return M (bool * message) then
      closed ← one_win_close_all contato_id now;
      mret (true, MarkedWon closed)
    else mret (false, FailedUpdate)
  else
    success ← update_contact_status contato_id new_status now;
    if success : bool return M (bool * message)
    then mret (true, MovedTo new_status)
    else mret (false, FailedUpdate).

(** A caller performing transitions one after the other; an exception
    raised by one of them is shown to the user and the session goes on
    from the store as that transition left it. *)
Fixpoint run (ops : list (string * string * clock)) (s : store) : store :=
  match ops with
  | [] => s
  | (contato_id, new_status, now) :: rest =>
      run rest (move_to_stage contato_id new_status now s).2
  end.

(** *** Observations on the store *)

Definition status_of (s : store) (id : string) : option Py.value :=
  status <$> contatos s !! id.

Definition notes_of (s : store) (id : string) : option Py.value :=
  notes <$> contatos s !! id.

Definition won (s : store) (id : string) : Prop :=
  status_of s id = Some (Some "Won").

Definition linked (s : store) (caso contato : string) : Prop :=
  ∃ r, r ∈ relacionamentos s ∧ caso_id r = caso ∧ contato_id r = contato.

(** At most one contact linked to case [caso] holds status Won. *)
Definition single_winner (s : store) (caso : string) : Prop :=
  ∀ c1 c2,
    linked s caso c1 → linked s caso c2 → won s c1 → won s c2 → c1 = c2.

(** *** Example stores *)

(** A contact with a name, no phone, and the given status and notes. *)
Definition blank (st : string) (n : Py.value) : contato :=
  Contato (Some "x") None None None None (Some st) n None.

(** One case K with relatives A (New), B (Attempted, with notes "foo"),
    C (Won) and D (Lost). *)
Definition family : store :=
  MkStore
    (<["A" := blank "New" None]>
       (<["B" := blank "Attempted" (Some "foo")]>
          (<["C" := blank "Won" None]>
             (<["D" := blank "Lost" None]> ∅))))
    [Relacionamento "r1" "K" "A" (Some "son");
     Relacionamento "r2" "K" "B" (Some "daughter");
     Relacionamento "r3" "K" "C" None;
     Relacionamento "r4" "K" "D" None]
    [] [].

Definition noon : clock := Clock "2024-05-01T12:00:00" "2024-05-01 12:00".

(** The same tables with another schedule of failures. *)
Definition with_faults (f : list bool) (s : store) : store :=
  MkStore (contatos s) (relacionamentos s) f (calls s).

(** Contact W is linked to case K1 by the first row and to case K2 by a
    later one; Y is a relative of case K1 and X a relative of case K2. *)
Definition two_cases : store :=
  MkStore
    (<["W" := blank "New" None]>
       (<["X" := blank "New" None]>
          (<["Y" := blank "In Progress" None]> ∅)))
    [Relacionamento "r1" "K1" "W" (Some "son");
     Relacionamento "r2" "K1" "Y" (Some "wife");
     Relacionamento "r3" "K2" "W" (Some "nephew");
     Relacionamento "r4" "K2" "X" (Some "son")]
    [] [].

(** Case K with relatives A, B and E, none of them Won or Lost; the fifth
    round trip of the next operation fails. *)
Definition flaky : store :=
  MkStore
    (<["A" := blank "New" None]>
       (<["B" := blank "Attempted" None]>
          (<["E" := blank "New" None]> ∅)))
    [Relacionamento "r1" "K" "A" None;
     Relacionamento "r2" "K" "B" None;
     Relacionamento "r3" "K" "E" None]
    [false; false; false; false; true] [].

(** *** Vocabulary of the properties *)

(** A status the cascade passes over. *)
Definition terminal (v : Py.value) : Prop :=
  v = Some "Won" ∨ v = Some "Lost".

(** The row the cascade's update leaves behind. *)
Definition closed_contato (now : clock) (c : contato) : contato :=
  Contato (nome c) (telefone_1 c) (telefone_2 c) (telefone_3 c)
          (telefone_4 c) (Some "Lost") (Some (audit_line now))
          (Some (isoformat now)).

(** The rows the loop passes over: the winner, contacts already Won or
    Lost, and contacts that no row of the case names. *)
Definition skipped (w : string) (rows : list string) (s : store)
    (x : string) : Prop :=
  x = w ∨ x ∉ rows ∨ ∃ c, contatos s !! x = Some c ∧ terminal (status c).

(** A contact the cascade newly set to Lost between two stores. *)
Definition newly_closed (s s' : store) (x : string) : Prop :=
  ∃ c c', contatos s !! x = Some c ∧ ¬ terminal (status c) ∧
          contatos s' !! x = Some c' ∧ status c' = Some "Lost".

(** The case the cascade works on: the one of the first relationship row
    the store returns for the winner. *)
Definition first_case (s : store) (w : string) : option string :=
  head (caso_id <$> filter (λ r, contato_id r = w) (relacionamentos s)).

Definition case_rows (s : store) (k : string) : list string :=
  contato_id <$> filter (λ r, caso_id r = k) (relacionamentos s).

(** The fields [update_contact_status] writes. *)
Definition status_fields (new_status : string) (now : clock)
  : list (string * Py.value) :=
  [("status", Some new_status); ("status_updated_at", Some (isoformat now))].

(** If [id] is linked to case [caso], no other contact linked to that case
    is Won. *)
Definition no_other_winner (s : store) (caso id : string) : Prop :=
  linked s caso id → ∀ c, linked s caso c → won s c → c = id.

(** Every transition to Won of the sequence that is applied to a contact of
    case [caso] finds, at its turn, no other winner on that case. *)
Fixpoint guarded (caso : string) (ops : list (string * string * clock))
    (s : store) : Prop :=
  match ops with
  | [] => True
  | (contato_id, new_status, now) :: rest =>
      (new_status = "Won" → no_other_winner s caso contato_id) ∧
      guarded caso rest (move_to_stage contato_id new_status now s).2
  end.

(** The tables of [family] with one more relationship row, returned first:
    A is also linked to case K0, which has no other relative. *)
Definition family2 : store :=
  MkStore (contatos family)
          (Relacionamento "r0" "K0" "A" (Some "nephew")
             :: relacionamentos family)
          [] [].

(** A contact the cascade for winner [w] has to close on case [caso]:
    another contact linked to the case that is neither Won nor Lost. *)
Definition eligible (s : store) (caso w x : string) : Prop :=
  linked s caso x ∧ x ≠ w ∧
  ∃ c, contatos s !! x = Some c ∧ ¬ terminal (status c).

(** The store at the entry of the cascade's loop, after the winner's own
    write and the two reads of [relacionamentos] succeeded; [fs] is the
    schedule that is left for the loop. *)
Definition loop_entry (s : store) (w caso : string) (now : clock)
    (fs : list bool) : store :=
  MkStore (alter (apply_fields (status_fields "Won" now)) w (contatos s))
          (relacionamentos s) fs
          (calls s ++ [Update "contatos" (status_fields "Won" now) "id" w;
                       Select "relacionamentos" "caso_id" "contato_id" w;
                       Select "relacionamentos" "contato_id" "caso_id" caso]).

(** The scope the specification gives the cascade: a transition to Won
    closes the eligible other contacts of every case the winner is linked
    to. *)
Definition cascade_covers_all_cases (s : store) (w : string) (now : clock)
  : Prop :=
  ∀ caso x c,
    linked s caso w → linked s caso x → x ≠ w →
    contatos s !! x = Some c → ¬ terminal (status c) →
    status_of (move_to_stage w "Won" now s).2 x = Some (Some "Lost").

(** The independence the specification gives the sibling writes: every
    eligible sibling of the case gets its update attempted. *)
Definition writes_attempted_independently (s : store) (w : string)
    (now : clock) : Prop :=
  ∀ caso x c,
    first_case s w = Some caso → linked s caso x → x ≠ w →
    contatos s !! x = Some c → ¬ terminal (status c) →
    ∃ fields,
      Update "contatos" fields "id" x ∈ calls (move_to_stage w "Won" now s).2.

(** *** Further vocabulary *)

(** Every round trip to come succeeds. *)
Definition reliable (s : store) : Prop :=
  Forall (λ b, b = false) (faults s).

(** Every stored status is one of the five stages. *)
Definition valid_statuses (s : store) : Prop :=
  ∀ id c, contatos s !! id = Some c →
          ∃ st, status c = Some st ∧ st ∈ PIPELINE_STAGES.

(** [other_stages] of [render_detail_view]: the targets the "Move to
    Stage" selector offers for a contact whose status is [current_status]
    ([contact.get('status', 'New')], [None] for a NULL status). *)
Definition other_stages (current_status : Py.value) : list string :=
  filter (λ st, Some st ≠ current_status) PIPELINE_STAGES.

(** The transitions the detail view can ask for: the selected entry of
    [other_stages], or one of the quick buttons, which are shown only when
    the contact is not already in that stage. *)
Definition offered (current_status : Py.value) (target : string) : Prop :=
  target ∈ other_stages current_status ∨
  (target = "Won" ∧ current_status ≠ Some "Won") ∨
  (target = "Lost" ∧ current_status ≠ Some "Lost").

(** Case K with one relative, S, linked by two relationship rows. *)
Definition lone : store :=
  MkStore
    (<["S" := blank "Attempted" None]> ∅)
    [Relacionamento "r1" "K" "S" (Some "son");
     Relacionamento "r2" "K" "S" (Some "heir")]
    [] [].

(** From [s] to [s'] exactly [k] round trips were made, each taking one
    entry of the failure schedule, and none of them failed. *)
Definition clean_trips (k : nat) (s s' : store) : Prop :=
  length (calls s') = (length (calls s) + k)%nat ∧
  faults s' = drop k (faults s) ∧
  Forall (λ b, b = false) (take k (faults s)).

(** The update the cascade issues to close contact [x]. *)
Definition close_update (now : clock) (x : string) : call :=
  Update "contatos"
    [("status", Some "Lost"); ("notes", Some (audit_line now));
     ("status_updated_at", Some (isoformat now))] "id" x.

Definition is_write (c : call) : bool :=
  match c with
  | Update _ _ _ _ => true
  | _ => false
  end.

(** *** Stage counts ([get_stage_counts]) *)

(** The number of contacts whose status is [stage]. *)
Definition count_status (s : store) (stage : string) : nat :=
  length (filter (λ kv, status kv.2 = Some stage) (map_to_list (contatos s))).

(** [client.table('contatos').select('id', count='exact')
      .eq('status', stage).execute().count], an exact count. *)
Definition count_contatos_by_status (stage : string) : M nat := λ s,
  match execute (Select "contatos" "id" "status" stage) s with
  | (Ret _, s') => (Ret (count_status s' stage), s')
  | (Raise e, s') => (Raise e, s')
  end.

(** The loop of [get_stage_counts]; [resp.count if resp.count else 0] is
    the count itself. *)
Fixpoint count_stages (stages : list string) (counts : gmap string nat)
  : M (gmap string nat) :=
  match stages with
  | [] => mret counts
  | stage :: rest =>
      n ← count_contatos_by_status stage;
      count_stages rest (<[stage := n]> counts)
  end.

Definition get_stage_counts : M (gmap string nat) :=
  count_stages PIPELINE_STAGES ∅.

(** What the sidebar shows for a stage: [counts.get(stage, 0)]. *)
Definition shown_count (counts : gmap string nat) (stage : string) : nat :=
  default 0 (counts !! stage).

(** The number of contacts whose status is one of the five stages. *)
Definition count_staged (s : store) : nat :=
  length (filter (λ kv, status kv.2 ∈ (Some <$> PIPELINE_STAGES))
                 (map_to_list (contatos s))).

(** The tables of [flaky], with no failure to come. *)
Definition flaky_free : store := with_faults [] flaky.

End Engine.

(** ** The card assembler ([fetch_pipeline_cards] of [app.py]) *)

Module Cards.

(** Python's [str.isspace] on the code points below 256. *)
Definition is_space (a : Ascii.ascii) : bool :=
  let n := Ascii.nat_of_ascii a in
  (((9 <=? n) && (n <=? 13)) || ((28 <=? n) && (n <=? 32))
   || (n =? 133) || (n =? 160))%nat.

Fixpoint lstrip (s : string) : string :=
  match s with
  | EmptyString => EmptyString
  | String a rest => if is_space a then lstrip rest else s
  end.

Fixpoint rstrip (s : string) : string :=
  match s with
  | EmptyString => EmptyString
  | String a rest =>
      match rstrip rest with
      | EmptyString => if is_space a then EmptyString else String a EmptyString
      | kept => String a kept
      end
  end.

(** [s.strip()] *)
Definition strip (s : string) : string := rstrip (lstrip s).

(** Truth value of a string: the empty string is falsy. *)
Definition truthy (s : string) : bool :=
  match s with
  | EmptyString => false
  | String _ _ => true
  end.

(** [p and p.strip()], as a truth value. *)
Definition has_number (p : Py.value) : bool :=
  match p with
  | Some s => truthy s && truthy (strip s)
  | None => false
  end.

(** [next((p for p in phones if p and p.strip()), default)] *)
Fixpoint next_phone (phones : list Py.value) (default : string) : string :=
  match phones with
  | [] => default
  | p :: rest => if has_number p then Py.or_empty p
                 else next_phone rest default
  end.

(** [sep.join(l)] *)
Fixpoint join (sep : string) (l : list string) : string :=
  match l with
  | [] => ""
  | [s] => s
  | s :: rest => s +:+ sep +:+ join sep rest
  end.

(** The embedded [contatos] object of a row of the response. *)
Record contato_row := ContatoRow {
  ct_id : string;
  ct_nome : Py.value;
  ct_telefone_1 : Py.value;
  ct_telefone_2 : Py.value;
  ct_telefone_3 : Py.value;
  ct_telefone_4 : Py.value;
  ct_status : Py.value;
  ct_notes : Py.value
}.

(** The embedded [casos] object of a row of the response. *)
Record caso_row := CasoRow {
  cs_id : string;
  cs_nome : Py.value;
  cs_cidade : Py.value;
  cs_data_obito : Py.value
}.

(** A row of the response: a relationship with its contact and its case;
    [None] stands for an embedded object that is null or empty. *)
Record rel_row := RelRow {
  r_id : string;
  r_tipo_parentesco : Py.value;
  r_caso_id : Py.value;
  r_contatos : option contato_row;
  r_casos : option caso_row
}.

Record card := Card {
  contato_id : string;
  contato_nome : Py.value;
  phone_display : string;
  all_phones : string;
  status : Py.value;
  notes : Py.value;
  caso_id : option string;
  caso_nome : Py.value;
  caso_cidade : Py.value;
  caso_data_obito : string;
  tipo_parentesco : Py.value
}.

(** [[contato.get(f'telefone_{i}', '') for i in range(1, 5)]] *)
Definition phones_of (contato : contato_row) : list Py.value :=
  [ct_telefone_1 contato; ct_telefone_2 contato;
   ct_telefone_3 contato; ct_telefone_4 contato].

(** The dict appended to [cards] for a row and its contact. *)
Definition make_card (rel : rel_row) (contato : contato_row) : card :=
  let phones := phones_of contato in
  Card (ct_id contato)
       (ct_nome contato)
       (next_phone phones "No phone")
       (join ", " (Py.or_empty <$> filter (λ p, has_number p = true) phones))
       (ct_status contato)
       (ct_notes contato)
       (cs_id <$> r_casos rel)
       (match r_casos rel with
        | Some caso => cs_nome caso
        | None => Some "No linked case"
        end)
       (match r_casos rel with
        | Some caso => cs_cidade caso
        | None => Some ""
        end)
       (match r_casos rel with
        | Some caso =>
            if truthy (Py.or_empty (cs_data_obito caso))
            then String.substring 0 10 (Py.or_empty (cs_data_obito caso))
            else ""
        | None => ""
        end)
       (r_tipo_parentesco rel).

(** The loop over [response.data]: [seen] is [seen_contacts] and [cards]
    the list built so far. *)
Fixpoint assemble (rows : list rel_row) (seen : gset string)
    (cards : list card) : list card :=
  match rows with
  | [] => cards
  | rel :: rest =>
      match r_contatos rel with
      | None => assemble rest seen cards
      | Some contato =>
          if decide (ct_id contato ∈ seen) then assemble rest seen cards
          else assemble rest ({[ct_id contato]} ∪ seen)
                        (cards ++ [make_card rel contato])
      end
  end.

Section Fetch.

(** The store's answer to the joined query on [relacionamentos] for a
    status, an optional city pattern and a limit. *)
Variable query : string → option string → nat → option (list rel_row).

(** The rows of the response: [response.data or []]. *)
Definition response_rows (status : string) (limit : nat)
    (cidade_filter : option string) : list rel_row :=
  let pattern :=
    match cidade_filter with
    | Some f => if truthy f && truthy (strip f) then Some (strip f) else None
    | None => None
    end in
  default [] (query status pattern limit).

Definition fetch_pipeline_cards (status : string) (limit : nat)
    (cidade_filter : option string) : list card :=
  assemble (response_rows status limit cidade_filter) ∅ [].

End Fetch.

(** *** Deduplication *)

(** Row [rel] carries contact [cid]. *)
Definition names (cid : string) (rel : rel_row) : Prop :=
  ct_id <$> r_contatos rel = Some cid.

#[global] Instance names_dec cid rel : Decision (names cid rel).
Proof. unfold names. apply _. Defined.

(** The first row of the response, in the store's result order, that
    carries contact [cid]. *)
Definition first_row (rows : list rel_row) (cid : string) : option rel_row :=
  snd <$> list_find (names cid) rows.

(** A store whose answer lists contact c1 twice, first as the son in case
    K1 and then as the nephew in case K2, and contact c2 once. *)
Definition c1 : contato_row :=
  ContatoRow "c1" (Some "Ana") None (Some "  ") (Some "555-0101")
             (Some "555-0102") (Some "New") None.

Definition c2 : contato_row :=
  ContatoRow "c2" (Some "Rui") (Some "") None None (Some " ") (Some "New") None.

Definition sample_query (status : string) (pattern : option string)
    (limit : nat) : option (list rel_row) :=
  Some [RelRow "r1" (Some "son") (Some "K1") (Some c1)
               (Some (CasoRow "K1" (Some "Jose") (Some "Lisboa")
                              (Some "2024-04-30T00:00:00")));
        RelRow "r2" (Some "brother") (Some "K1") (Some c2) None;
        RelRow "r3" (Some "nephew") (Some "K2") (Some c1)
               (Some (CasoRow "K2" (Some "Maria") (Some "Porto") None))].

(** *** Phones *)

Fixpoint all_space (s : string) : bool :=
  match s with
  | EmptyString => true
  | String a rest => is_space a && all_space rest
  end.

(** A phone slot with no number: missing ([None]), empty, or made of
    whitespace only. *)
Definition blank (p : Py.value) : Prop :=
  match p with
  | None => True
  | Some s => all_space s = true
  end.

(** *** The column of a stage ([render_pipeline_column]) *)

(** [CARDS_PER_PAGE] *)
Definition CARDS_PER_PAGE : nat := 15.

(** The "Load More" button is rendered when [len(cards) >= limit]. *)
Definition load_more_offered (cards : list card) (limit : nat) : bool :=
  (limit <=? length cards)%nat.

(** The contacts the rows of a response carry, in the order of the rows. *)
Definition row_contacts (rows : list rel_row) : list string :=
  omap (λ rel, ct_id <$> r_contatos rel) rows.

(** A row is wasted when its contact was seen before it: in [seen], or on
    an earlier row. *)
Definition wasted (rows : list rel_row) (seen : gset string) : Prop :=
  ∃ i rel c, rows !! i = Some rel ∧ r_contatos rel = Some c ∧
    (ct_id c ∈ seen ∨
     ∃ j rel', (j < i)%nat ∧ rows !! j = Some rel' ∧ names (ct_id c) rel').

End Cards.

(** ** The relatives editor ([app_legacy.py]) *)

Module Legacy.
Import Cards.

(** [aggregate_phone_numbers]: the non-blank phones, stripped, joined. *)
Definition aggregate_phone_numbers
    (telefone_1 telefone_2 telefone_3 telefone_4 : Py.value) : string :=
  let phones := [telefone_1; telefone_2; telefone_3; telefone_4] in
  let valid_phones :=
    (λ p, strip (Py.or_empty p)) <$> filter (λ p, has_number p = true) phones in
  join ", " valid_phones.

End Legacy.

(** ** The relatives editor: store access ([app_legacy.py]) *)

Module Editor.

(** A row of table [contatos] as the legacy application uses it. *)
Record contato := Contato {
  nome : Py.value;
  telefone_1 : Py.value;
  telefone_2 : Py.value;
  telefone_3 : Py.value;
  telefone_4 : Py.value;
  contacted : option bool;
  notes : Py.value
}.

(** The two round trips of the editor: the joined read of the relatives of
    a case and the update of the CRM fields of a contact. *)
Inductive call :=
| SelectRelatives (caso_id : string)
| UpdateCrm (contato_id : string) (contacted : bool) (notes : string).

(** The store, with the schedule of failing round trips and the trace of
    the calls made, as for the pipeline. *)
Record db := Db {
  contatos : gmap string contato;
  relacionamentos : list Store.relacionamento;
  faults : list bool;
  calls : list call
}.

(** One [.execute()]: whether it raised, and the store after it. *)
Definition execute (c : call) (s : db) : bool * db :=
  (match faults s with
   | true :: _ => true
   | _ => false
   end,
   Db (contatos s) (relacionamentos s) (tail (faults s)) (calls s ++ [c])).

(** An entry of the list [fetch_relatives_for_caso] returns. *)
Record relative := Relative {
  rv_rel_id : string;
  rv_contato_id : string;
  rv_nome : Py.value;
  rv_tipo_parentesco : Py.value;
  rv_telefone_1 : Py.value;
  rv_telefone_2 : Py.value;
  rv_telefone_3 : Py.value;
  rv_telefone_4 : Py.value;
  rv_contacted : bool;
  rv_notes : string
}.

(** The flattened entry for a relationship row and its embedded contact:
    [contacted] is [contato.get('contacted', False) or False] and [notes]
    is [contato.get('notes', '') or '']. *)
Definition flatten (rel : Store.relacionamento) (c : contato) : relative :=
  Relative (Store.rel_id rel) (Store.contato_id rel) (nome c)
           (Store.tipo_parentesco rel)
           (telefone_1 c) (telefone_2 c) (telefone_3 c) (telefone_4 c)
           (default false (contacted c)) (Py.or_empty (notes c)).

(** [fetch_relatives_for_caso]: rows whose embedded contact is missing are
    skipped; a failing round trip raises. *)
Definition fetch_relatives_for_caso (caso_id : string) (s : db)
  : Store.outcome (list relative) * db :=
  let '(raised, s') := execute (SelectRelatives caso_id) s in
  if raised then (Store.Raise Store.APIError, s')
  else
    (Store.Ret
       (omap (λ rel, flatten rel <$> contatos s' !! Store.contato_id rel)
             (filter (λ rel, Store.caso_id rel = caso_id)
                     (relacionamentos s'))),
     s').

(** A row of the DataFrame the editor shows. *)
Record df_row := DfRow {
  df_contato_id : string;
  df_nome : Py.value;
  df_tipo_parentesco : Py.value;
  df_telefones : string;
  df_contacted : bool;
  df_notes : Py.value
}.

(** [prepare_relatives_dataframe]; the empty DataFrame is the empty list. *)
Definition prepare_relatives_dataframe (relatives : list relative)
  : list df_row :=
  (λ rel, DfRow (rv_contato_id rel) (rv_nome rel) (rv_tipo_parentesco rel)
                (Legacy.aggregate_phone_numbers
                   (rv_telefone_1 rel) (rv_telefone_2 rel)
                   (rv_telefone_3 rel) (rv_telefone_4 rel))
                (rv_contacted rel) (Some (rv_notes rel))) <$> relatives.

(** The row after [.update({'contacted': contacted, 'notes': notes})]. *)
Definition saved (contacted : bool) (notes : string) (c : contato) : contato :=
  Contato (nome c) (telefone_1 c) (telefone_2 c) (telefone_3 c)
          (telefone_4 c) (Some contacted) (Some notes).

(** [update_contato_crm_fields]: a failing round trip is caught and
    reported as [False]. *)
Definition update_contato_crm_fields (contato_id : string) (contacted : bool)
    (notes : string) (s : db) : bool * db :=
  let '(raised, s') := execute (UpdateCrm contato_id contacted notes) s in
  if raised then (false, s')
  else
    (true,
     Db (alter (saved contacted notes) contato_id (contatos s'))
        (relacionamentos s') (faults s') (calls s')).

(** [original_df[original_df['contato_id'] == contato_id]], then
    [.iloc[0]] when it is not empty. *)
Definition original_row (original_df : list df_row) (contato_id : string)
  : option df_row :=
  snd <$> list_find (λ r, df_contato_id r = contato_id) original_df.

(** The write the loop makes for an edited row, if any: none when the
    contact is not in the original frame or neither [contacted] nor [notes]
    differs from the original row. *)
Definition pending (original_df : list df_row) (edited_row : df_row)
  : option call :=
  match original_row original_df (df_contato_id edited_row) with
  | None => None
  | Some original =>
      if negb (bool_decide (df_contacted edited_row = df_contacted original))
         || negb (bool_decide (df_notes edited_row = df_notes original))
      then Some (UpdateCrm (df_contato_id edited_row)
                           (df_contacted edited_row)
                           (Py.or_empty (df_notes edited_row)))
      else None
  end.

(** The loop of [detect_and_save_changes] over the rows of [edited_df]. *)
Fixpoint save_rows (edited_rows original_df : list df_row)
    (changes_made : nat) (s : db) : nat * db :=
  match edited_rows with
  | [] => (changes_made, s)
  | edited_row :: rest =>
      match pending original_df edited_row with
      | Some (UpdateCrm contato_id contacted notes) =>
          let '(success, s') :=
            update_contato_crm_fields contato_id contacted notes s in
          save_rows rest original_df
                    (if success then S changes_made else changes_made) s'
      | _ => save_rows rest original_df changes_made s
      end
  end.

(** [detect_and_save_changes]; the value is [changes_made], the number the
    toast shows when it is positive. *)
Definition detect_and_save_changes (edited_df original_df : option (list df_row))
    (s : db) : nat * db :=
  match edited_df, original_df with
  | Some edited, Some original =>
      match edited, original with
      | [], _ | _, [] => (0, s)
      | _, _ => save_rows edited original 0 s
      end
  | _, _ => (0, s)
  end.

(** *** Vocabulary of the properties *)

(** [o] is the first row of [original_df] for contact [id]. *)
Definition first_of (original_df : list df_row) (id : string) (o : df_row)
  : Prop :=
  ∃ i, original_df !! i = Some o ∧ df_contato_id o = id ∧
       ∀ j o', original_df !! j = Some o' → (j < i)%nat →
               df_contato_id o' ≠ id.

(** An edited row is a change when its contact is in the original frame
    and the row differs from the contact's first original row in
    [contacted] or in [notes]. *)
Definition changed (original_df : list df_row) (edited_row : df_row) : Prop :=
  ∃ o, first_of original_df (df_contato_id edited_row) o ∧
       (df_contacted edited_row ≠ df_contacted o ∨
        df_notes edited_row ≠ df_notes o).

#[global] Instance changed_dec original_df edited_row :
  Decision (changed original_df edited_row).
Proof.
  unfold changed, first_of.
  destruct (list_find (λ r, df_contato_id r = df_contato_id edited_row)
                      original_df) as [[i o]|] eqn:Hf.
  - destruct (decide (df_contacted edited_row ≠ df_contacted o ∨
                      df_notes edited_row ≠ df_notes o)) as [Hd|Hd];
      [left|right]; apply list_find_Some in Hf as (Hi & Hid & Hfirst).
    + exists o. split; [|done]. by exists i.
    + intros (o' & (i' & Hi' & Hid' & Hfirst') & Hd').
      destruct (Nat.lt_trichotomy i i') as [Hlt|[Heq|Hlt]].
      * by apply (Hfirst' i o Hi Hlt).
      * subst i'. rewrite Hi in Hi'. injection Hi' as <-. done.
      * by apply (Hfirst i' o' Hi' Hlt).
  - right. intros (o' & (i' & Hi' & Hid' & _) & _).
    apply list_find_None in Hf.
    apply (proj1 (Forall_forall _ _) Hf o'); [|done].
    by eapply list_elem_of_lookup_2.
Defined.

(** The update that saves an edited row: its [contacted], and its notes
    with the empty string for cleared notes. *)
Definition write_of (edited_row : df_row) : call :=
  UpdateCrm (df_contato_id edited_row) (df_contacted edited_row)
            (Py.or_empty (df_notes edited_row)).

(** Every round trip to come succeeds. *)
Definition reliable (s : db) : Prop := Forall (λ b, b = false) (faults s).

(** The number of failing round trips among the next [n]. *)
Definition failures (n : nat) (s : db) : nat :=
  length (filter (λ b, b = true) (take n (faults s))).

(** Case K with relatives A and B. *)
Definition household : db :=
  Db (<["A" := Contato (Some "Ana") (Some "555-0101") None None None
                       None (Some "left a message")]>
        (<["B" := Contato (Some "Rui") None None None None
                          (Some true) None]> ∅))
     [Store.Relacionamento "r1" "K" "A" (Some "daughter");
      Store.Relacionamento "r2" "K" "B" (Some "son")]
     [] [].

End Editor.

(** ** The master view ([render_master_view] of [app_legacy.py]) *)

Module Master.

(** A row of table [casos] as the page of results holds it. *)
Record caso := Caso {
  id : string;
  nome : Py.value;
  cidade : Py.value;
  data_obito : Py.value
}.

(** A value inside an f-string: [None] prints as "None". *)
Definition fmt (v : Py.value) : string :=
  match v with
  | Some s => s
  | None => "None"
  end.

(** The label of a record in the selector:
    f"{nome} - {cidade} ({data_obito[:10] or 'N/A'})". *)
Definition label (c : caso) : string :=
  fmt (nome c) +:+ " - " +:+ fmt (cidade c) +:+ " ("
  +:+ (if Cards.truthy (Py.or_empty (data_obito c))
       then String.substring 0 10 (Py.or_empty (data_obito c))
       else "N/A")
  +:+ ")".

(** [d[k] = v] on a dict kept as the list of its items in insertion order:
    an existing key keeps its place and takes the new value. *)
Fixpoint dict_set (d : list (string * string)) (k v : string)
  : list (string * string) :=
  match d with
  | [] => [(k, v)]
  | (k', v') :: rest =>
      if decide (k' = k) then (k, v) :: rest else (k', v') :: dict_set rest k v
  end.

(** The dict comprehension [options]. *)
Definition options (casos : list caso) : list (string * string) :=
  foldl (λ d c, dict_set d (id c) (label c)) [] casos.

Definition placeholder : string := "-- Select a deceased person --".

Definition display_options (casos : list caso) : list string :=
  placeholder :: (snd <$> options casos).

Definition id_list (casos : list caso) : list (option string) :=
  None :: (Some ∘ fst <$> options casos).

(** [l.index(x)]: the first position of [x]. *)
Definition index (l : list string) (x : string) : option nat :=
  fst <$> list_find (λ y, y = x) l.

(** The value [render_master_view] returns when the user picks the entry
    at position [choice] of the selector, which hands back the string at
    that position. *)
Definition render_master_view (casos : list caso) (choice : nat)
  : option string :=
  match casos with
  | [] => None
  | _ =>
      match display_options casos !! choice with
      | Some selected_display =>
          if Cards.truthy selected_display
             && negb (bool_decide (selected_display = placeholder))
          then
            match index (display_options casos) selected_display with
            | Some selected_idx => mjoin (id_list casos !! selected_idx)
            | None => None
            end
          else None
      | None => None
      end
  end.

(** The last character of a string. *)
Fixpoint last_char (s : string) : option Ascii.ascii :=
  match s with
  | EmptyString => None
  | String a EmptyString => Some a
  | String _ rest => last_char rest
  end.

(** A page with two records of the same name, city and date. *)
Definition twins : list caso :=
  [Caso "k1" (Some "Jose Silva") (Some "Lisboa") (Some "2024-04-30T00:00:00");
   Caso "k2" (Some "Ana Costa") (Some "Porto") None;
   Caso "k3" (Some "Jose Silva") (Some "Lisboa") (Some "2024-04-30")].

End Master.

(** ** The pager ([render_sidebar] of [app_legacy.py]) *)

Module Pager.

Local Open Scope Z_scope.

(** [PAGE_SIZE] *)
Definition PAGE_SIZE : Z := 20.

(** The entries of [st.session_state] the pagination controls use. *)
Record session_state := SessionState {
  page_offset : Z;
  selected_caso_id : option string
}.

(** [st.button(..., disabled=d)]: a disabled button reports no click. *)
Definition button (clicked disabled : bool) : bool := clicked && negb disabled.

(** The pagination controls of [render_sidebar]: the state they leave for
    the rerun, given which button the user clicked. *)
Definition pagination_controls (previous_clicked next_clicked : bool)
    (ss : session_state) : session_state :=
  if button previous_clicked (page_offset ss =? 0) then
    SessionState (Z.max 0 (page_offset ss - PAGE_SIZE)) None
  else if button next_clicked false then
    SessionState (page_offset ss + PAGE_SIZE) None
  else ss.

Definition page_backward : session_state → session_state :=
  pagination_controls true false.

Definition page_forward : session_state → session_state :=
  pagination_controls false true.

(** *** Page numbers and the other buttons *)

(** [current_page = (page_offset // PAGE_SIZE) + 1] *)
Definition current_page (ss : session_state) : Z :=
  page_offset ss / PAGE_SIZE + 1.

(** The entries [init_session_state] sets on the first load. *)
Definition initial : session_state := SessionState 0 None.

(** "Reset All Filters", as far as these entries go. *)
Definition reset_filters (ss : session_state) : session_state :=
  SessionState 0 None.

Inductive click := Previous | Next | Reset.

Definition on_click (c : click) (ss : session_state) : session_state :=
  match c with
  | Previous => page_backward ss
  | Next => page_forward ss
  | Reset => reset_filters ss
  end.

(** The state after a session's clicks, one rerun each. *)
Definition after_clicks (cs : list click) : session_state :=
  foldl (λ ss c, on_click c ss) initial cs.

End Pager.

(** ** Properties of the pipeline engine *)

Module EngineSpec.
Import Store Engine.

(** *** How one round trip and one loop iteration change the store *)

Lemma not_in_terminal v :
  Py.not_in v ["Won"; "Lost"] = false ↔ terminal v.
Proof.
  unfold Py.not_in, terminal. destruct v as [st|].
  - rewrite negb_false_iff, bool_decide_eq_true.
    rewrite !elem_of_cons, elem_of_nil.
    split; [intros [->|[->|[]]]; auto | intros [[= ->]|[= ->]]; auto].
  - split; [discriminate | intros [|]; discriminate].
Qed.

Lemma not_in_not_terminal v :
  Py.not_in v ["Won"; "Lost"] = true ↔ ¬ terminal v.
Proof.
  rewrite <- not_in_terminal.
  destruct (Py.not_in v _); split; congruence.
Qed.

Lemma execute_eq c s :
  ∃ r, execute c s =
       (r, MkStore (contatos s) (relacionamentos s) (tail (faults s))
                   (calls s ++ [c])).
Proof. unfold execute. destruct (faults s) as [|[] ?]; eauto. Qed.

Lemma project_status c :
  project ["status"] c = <["status" := status c]> ∅.
Proof. reflexivity. Qed.

#[local] Arguments project : simpl never.
#[local] Arguments update_contato : simpl never.
#[local] Arguments Py.truthy_row : simpl never.
#[local] Arguments Py.not_in : simpl never.

(** One iteration either leaves [contatos] as it was (the row is the
    winner's, the contact is already Won or Lost, or a round trip raised),
    or closes the contact and counts it. *)
Lemma close_sibling_cases w now x n s :
  relacionamentos (close_sibling w now x n s).2 = relacionamentos s ∧
  ((contatos (close_sibling w now x n s).2 = contatos s ∧
    ((∃ e, (close_sibling w now x n s).1 = Raise e) ∨
     ((close_sibling w now x n s).1 = Ret n ∧
      (x = w ∨ ∃ c, contatos s !! x = Some c ∧ terminal (status c)))))
   ∨
   ((close_sibling w now x n s).1 = Ret (S n) ∧ x ≠ w ∧
    ∃ c, contatos s !! x = Some c ∧ ¬ terminal (status c) ∧
         contatos (close_sibling w now x n s).2
         = <[x := closed_contato now c]> (contatos s))).
Proof.
  unfold close_sibling. destruct (decide (x = w)) as [->|Hne].
  { simpl. split; [done|]. left. split; [done|]. right. eauto. }
  unfold mbind, M_bind, select_contato_single.
  destruct (execute_eq (SelectSingle "contatos" "status" "id" x) s) as [r ->].
  destruct r as [[]|e]; simpl; [|split; [done|left; eauto]].
  destruct (contatos s !! x) as [c|] eqn:Hc; simpl;
    [|split; [done|left; eauto]].
  rewrite project_status, lookup_insert_eq.
  assert (Py.truthy_row (<["status" := status c]> ∅) = true) as ->.
  { unfold Py.truthy_row. rewrite negb_true_iff, bool_decide_eq_false.
    apply insert_non_empty. }
  simpl. destruct (Py.not_in (status c) _) eqn:Hst.
  - apply not_in_not_terminal in Hst.
    unfold update_contato.
    match goal with |- context [execute ?c ?s0] =>
      destruct (execute_eq c s0) as [r ->] end.
    destruct r as [[]|e]; simpl; [|split; [done|left; eauto]].
    split; [done|]. right. split; [done|]. split; [done|].
    exists c. split; [done|]. split; [done|].
    apply map_eq. intros y. destruct (decide (x = y)) as [<-|Hy].
    + rewrite lookup_alter_eq, lookup_insert_eq, Hc. reflexivity.
    + rewrite lookup_alter_ne, lookup_insert_ne by done. reflexivity.
  - apply not_in_terminal in Hst. simpl.
    split; [done|]. left. split; [done|]. right. split; [done|]. right. eauto.
Qed.

(** *** The loop of the cascade *)

Lemma close_loop_cons w now y rest n s :
  close_loop w now (y :: rest) n s =
  match close_sibling w now y n s with
  | (Ret a, s1) => close_loop w now rest a s1
  | (Raise e, s1) => (Raise e, s1)
  end.
Proof. reflexivity. Qed.

(** Case analysis on the first iteration of the loop. *)
Ltac loop_step w now y n s :=
  let H := fresh "Hstep" in
  rewrite (close_loop_cons w now y _ n s);
  pose proof (close_sibling_cases w now y n s) as H;
  destruct (close_sibling w now y n s) as [?r ?s1]; simpl in H;
  destruct H as [?Hrel [[?Hsame [[?e ->] | [-> ?Hskip]]]
                       | [-> [?Hne [?c [?Hc [?Hnt ?Hins]]]]]]].

Lemma close_loop_rels w now rows : ∀ n s,
  relacionamentos (close_loop w now rows n s).2 = relacionamentos s.
Proof.
  induction rows as [|y rest IH]; intros n s; [reflexivity|].
  loop_step w now y n s; simpl; try rewrite IH; congruence.
Qed.

Lemma close_loop_skips w now rows : ∀ n s x,
  skipped w rows s x →
  contatos (close_loop w now rows n s).2 !! x = contatos s !! x.
Proof.
  induction rows as [|y rest IH]; intros n s x Hx; [reflexivity|].
  loop_step w now y n s; simpl.
  - congruence.
  - rewrite IH, Hsame; [done|].
    destruct Hx as [->|[Hx|Hx]]; [by left| |].
    + right. left. intros ?. apply Hx. by right.
    + right. right. by rewrite Hsame.
  - destruct (decide (x = y)) as [->|Hxy].
    + destruct Hx as [->|[Hx|(c' & Hc' & Ht)]]; [done| |].
      * exfalso. apply Hx. by left.
      * rewrite Hc in Hc'. injection Hc' as <-. done.
    + rewrite IH; [by rewrite Hins, lookup_insert_ne|].
      destruct Hx as [->|[Hx|Hx]]; [by left| |].
      * right. left. intros ?. apply Hx. by right.
      * right. right. by rewrite Hins, lookup_insert_ne.
Qed.

(** Whatever the outcome, a row of [contatos] is either as it was or is a
    row the cascade closed: a contact other than the winner, named by a
    row of the case, that was neither Won nor Lost. *)
Lemma close_loop_only_closes w now rows : ∀ n s x,
  contatos (close_loop w now rows n s).2 !! x = contatos s !! x ∨
  ∃ c, contatos s !! x = Some c ∧ ¬ terminal (status c) ∧ x ≠ w ∧
       x ∈ rows ∧
       contatos (close_loop w now rows n s).2 !! x
       = Some (closed_contato now c).
Proof.
  induction rows as [|y rest IH]; intros n s x; [by left|].
  loop_step w now y n s; simpl.
  - left. congruence.
  - destruct (IH n s1 x) as [->|(c & Hc & Hnt & Hne & Hin & ->)].
    + left. congruence.
    + right. exists c. rewrite <- Hsame. repeat split; try done. by right.
  - destruct (decide (x = y)) as [->|Hxy].
    + right. exists c. repeat split; try done; [by left|].
      rewrite close_loop_skips, Hins, lookup_insert_eq; [done|].
      right. right. exists (closed_contato now c).
      rewrite Hins, lookup_insert_eq. split; [done|]. by right.
    + destruct (IH (S n) s1 x) as [->|(c' & Hc' & Hnt' & Hne' & Hin & ->)].
      * left. by rewrite Hins, lookup_insert_ne.
      * right. exists c'. rewrite Hins, lookup_insert_ne in Hc' by done.
        repeat split; try done. by right.
Qed.

Lemma terminal_closed now c : terminal (status (closed_contato now c)).
Proof. by right. Qed.

Lemma close_loop_count w now rows : ∀ n s m s',
  close_loop w now rows n s = (Ret m, s') →
  ∃ L, NoDup L ∧ m = n + length L ∧ ∀ x, x ∈ L ↔ newly_closed s s' x.
Proof.
  induction rows as [|y rest IH]; intros n s m s' Hrun.
  { injection Hrun as <- <-. exists []. split; [constructor|].
    split; [simpl; lia|]. intros x. split; [by intros ?%elem_of_nil|].
    intros (c & c' & Hc & Hnt & Hc' & Hl). exfalso. apply Hnt.
    rewrite Hc in Hc'. injection Hc' as ->. by right. }
  revert Hrun. loop_step w now y n s; intros Hrun; [done| |].
  - destruct (IH _ _ _ _ Hrun) as (L & HL & -> & Hmem).
    exists L. split; [done|]. split; [done|]. intros x. rewrite Hmem.
    unfold newly_closed. by rewrite Hsame.
  - destruct (IH _ _ _ _ Hrun) as (L & HL & -> & Hmem).
    assert (contatos s' !! y = Some (closed_contato now c)) as Hy.
    { replace s' with (close_loop w now rest (S n) s1).2 by by rewrite Hrun.
      rewrite close_loop_skips; [by rewrite Hins, lookup_insert_eq|].
      right. right. exists (closed_contato now c).
      rewrite Hins, lookup_insert_eq. split; [done|apply terminal_closed]. }
    assert (¬ newly_closed s1 s' y) as Hny.
    { intros (c1 & c2 & Hc1 & Hnt1 & _). apply Hnt1.
      rewrite Hins, lookup_insert_eq in Hc1. injection Hc1 as <-.
      apply terminal_closed. }
    exists (y :: L). split; [|split; [simpl; lia|]].
    { constructor; [|done]. by rewrite Hmem. }
    intros x. rewrite elem_of_cons, Hmem. split.
    + intros [->|Hx].
      * exists c, (closed_contato now c). done.
      * destruct (decide (x = y)) as [->|Hxy]; [done|].
        unfold newly_closed in *.
        by rewrite Hins, lookup_insert_ne in Hx.
    + intros Hx. destruct (decide (x = y)) as [->|Hxy]; [by left|right].
      unfold newly_closed in *. by rewrite Hins, lookup_insert_ne.
Qed.

(** When the loop runs to its end, every other contact named by a row of
    the case is Won or Lost. *)
Lemma close_loop_completed w now rows : ∀ n s m s',
  close_loop w now rows n s = (Ret m, s') →
  ∀ x, x ∈ rows → x ≠ w →
  ∃ c', contatos s' !! x = Some c' ∧ terminal (status c').
Proof.
  induction rows as [|y rest IH]; intros n s m s' Hrun x Hx Hxw.
  { by apply elem_of_nil in Hx. }
  revert Hrun. loop_step w now y n s; intros Hrun; [done| |].
  - apply elem_of_cons in Hx as [->|Hx]; [|by eapply IH].
    destruct Hskip as [->|(c & Hc & Ht)]; [done|].
    exists c. split; [|done].
    replace s' with (close_loop w now rest n s1).2 by by rewrite Hrun.
    rewrite close_loop_skips; [congruence|].
    right. right. exists c. by rewrite Hsame.
  - apply elem_of_cons in Hx as [->|Hx]; [|by eapply IH].
    exists (closed_contato now c). split; [|apply terminal_closed].
    replace s' with (close_loop w now rest (S n) s1).2 by by rewrite Hrun.
    rewrite close_loop_skips; [by rewrite Hins, lookup_insert_eq|].
    right. right. exists (closed_contato now c).
    rewrite Hins, lookup_insert_eq. split; [done|apply terminal_closed].
Qed.

(** *** The cascade as a whole *)

Lemma elem_of_case_rows s k x : x ∈ case_rows s k ↔ linked s k x.
Proof.
  unfold case_rows, linked. rewrite list_elem_of_fmap. split.
  - intros (r & -> & Hr). apply list_elem_of_filter in Hr as [Hk Hr]. eauto.
  - intros (r & Hr & Hk & Hx). exists r. split; [done|].
    by apply list_elem_of_filter.
Qed.

Lemma one_win_close_all_cases w now s :
  (contatos (one_win_close_all w now s).2 = contatos s ∧
   relacionamentos (one_win_close_all w now s).2 = relacionamentos s ∧
   ((∃ e, (one_win_close_all w now s).1 = Raise e) ∨
    ((one_win_close_all w now s).1 = Ret 0 ∧ first_case s w = None)))
  ∨
  ∃ k s1, first_case s w = Some k ∧ contatos s1 = contatos s ∧
          relacionamentos s1 = relacionamentos s ∧
          one_win_close_all w now s = close_loop w now (case_rows s k) 0 s1.
Proof.
  unfold one_win_close_all, mbind, M_bind, select_casos_of_contato.
  destruct (execute_eq (Select "relacionamentos" "caso_id" "contato_id" w) s)
    as [r ->].
  destruct r as [[]|e]; simpl; [|left; eauto].
  fold (first_case s w). unfold first_case.
  destruct (caso_id <$> filter _ (relacionamentos s)) as [|k ?] eqn:Hl; simpl.
  { left. eauto. }
  unfold select_contatos_of_caso.
  match goal with |- context [execute ?c ?s0] =>
    destruct (execute_eq c s0) as [r ->] end.
  destruct r as [[]|e]; simpl; [|left; eauto].
  right. eexists k, _. split; [done|]. split; [|split]; [| |reflexivity]; done.
Qed.

Lemma one_win_close_all_rels w now s :
  relacionamentos (one_win_close_all w now s).2 = relacionamentos s.
Proof.
  destruct (one_win_close_all_cases w now s)
    as [(_ & H & _)|(k & s1 & _ & _ & Hr & ->)]; [done|].
  by rewrite close_loop_rels.
Qed.

(** Whatever its outcome, the cascade leaves every row of [contatos] as it
    was, except rows it closes; those belong to contacts other than the
    winner that are linked to the first case and were not Won or Lost. *)
Lemma one_win_close_all_only_closes w now s x :
  contatos (one_win_close_all w now s).2 !! x = contatos s !! x ∨
  ∃ k c, first_case s w = Some k ∧ linked s k x ∧ x ≠ w ∧
         contatos s !! x = Some c ∧ ¬ terminal (status c) ∧
         contatos (one_win_close_all w now s).2 !! x
         = Some (closed_contato now c).
Proof.
  destruct (one_win_close_all_cases w now s)
    as [(-> & _)|(k & s1 & Hk & Hc & Hr & ->)]; [by left|].
  destruct (close_loop_only_closes w now (case_rows s k) 0 s1 x)
    as [->|(c & Hx & Hnt & Hne & Hin & ->)]; [left; congruence|].
  right. exists k, c. rewrite <- Hc. by rewrite <- elem_of_case_rows.
Qed.

(** *** Status writes and transitions *)

Lemma update_contact_status_cases id st now s :
  relacionamentos (update_contact_status id st now s).2 = relacionamentos s ∧
  (((update_contact_status id st now s).1 = Ret false ∧
    head (faults s) = Some true ∧
    contatos (update_contact_status id st now s).2 = contatos s)
   ∨
   ((update_contact_status id st now s).1 = Ret true ∧
    head (faults s) ≠ Some true ∧
    contatos (update_contact_status id st now s).2
    = alter (apply_fields (status_fields st now)) id (contatos s))).
Proof.
  unfold update_contact_status, try_except, mbind, M_bind, update_contato,
    execute.
  destruct (faults s) as [|[] ?]; simpl; (split; [done|]);
    [right|left|right]; done.
Qed.

Lemma move_to_stage_rels id st now s :
  relacionamentos (move_to_stage id st now s).2 = relacionamentos s.
Proof.
  unfold move_to_stage, mbind, M_bind.
  destruct (update_contact_status_cases id "Won" now s) as [Hw _].
  destruct (update_contact_status_cases id st now s) as [Hs _].
  destruct (decide (st = "Won")) as [Hst|Hst].
  - destruct (update_contact_status id "Won" now s) as [[[]|e] s1]; simpl in *;
      try done.
    pose proof (one_win_close_all_rels id now s1) as Hc.
    destruct (one_win_close_all id now s1) as [[n|e'] s2]; simpl in *;
      congruence.
  - by destruct (update_contact_status id st now s) as [[[]|e] s1].
Qed.

(** A transition makes nobody Won but, when the target is Won, the contact
    it is applied to. *)
Lemma move_to_stage_won id st now s x :
  won (move_to_stage id st now s).2 x → won s x ∨ (x = id ∧ st = "Won").
Proof.
  unfold won, status_of, move_to_stage, mbind, M_bind.
  destruct (decide (st = "Won")) as [->|Hst].
  - destruct (update_contact_status_cases id "Won" now s)
      as [_ [(Hr & _ & Hc)|(Hr & _ & Hc)]];
      destruct (update_contact_status id "Won" now s) as [r s1];
      simpl in Hr, Hc; subst r; simpl.
    { rewrite Hc. auto. }
    destruct (decide (x = id)) as [->|Hx]; [by right|]. left.
    assert (status <$> contatos (one_win_close_all id now s1).2 !! x
            = Some (Some "Won")) as Hw.
    { by destruct (one_win_close_all id now s1) as [[n|e] s2]. }
    destruct (one_win_close_all_only_closes id now s1 x)
      as [Heq|(k & c & _ & _ & _ & _ & _ & Heq)]; rewrite Heq in Hw.
    + by rewrite Hc, lookup_alter_ne in Hw.
    + done.
  - destruct (update_contact_status_cases id st now s)
      as [_ [(Hr & _ & Hc)|(Hr & _ & Hc)]];
      destruct (update_contact_status id st now s) as [r s1];
      simpl in Hr, Hc; subst r; simpl; rewrite Hc; [auto|].
    destruct (decide (x = id)) as [->|Hx].
    + rewrite lookup_alter_eq.
      destruct (contatos s !! id) as [c|]; simpl; [|done].
      intros [= ->]. done.
    + rewrite lookup_alter_ne by done. auto.
Qed.

Lemma linked_rels s s' k x :
  relacionamentos s' = relacionamentos s → linked s' k x ↔ linked s k x.
Proof. unfold linked. by intros ->. Qed.

Lemma move_to_stage_single_winner caso id st now s :
  single_winner s caso →
  (st = "Won" → no_other_winner s caso id) →
  single_winner (move_to_stage id st now s).2 caso.
Proof.
  intros Hinv Hguard c1 c2 H1 H2 W1 W2.
  apply (linked_rels s) in H1, H2; try apply move_to_stage_rels.
  apply move_to_stage_won in W1 as [W1|[-> Hst]];
    apply move_to_stage_won in W2 as [W2|[-> Hst']].
  - by apply Hinv.
  - by apply (Hguard Hst').
  - symmetry. by apply (Hguard Hst).
  - done.
Qed.

(** *** Equations and inversions used below *)

Lemma update_contact_status_eq id st now s :
  update_contact_status id st now s =
  let failed := bool_decide (head (faults s) = Some true) in
  (Ret (negb failed),
   MkStore (if failed then contatos s
            else alter (apply_fields (status_fields st now)) id (contatos s))
           (relacionamentos s) (tail (faults s))
           (calls s ++ [Update "contatos" (status_fields st now) "id" id])).
Proof.
  unfold update_contact_status, try_except, update_contato, execute,
    mbind, M_bind.
  by destruct (faults s) as [|[] ?].
Qed.

Lemma execute_reliable c s :
  reliable s →
  execute c s
  = (Ret (), MkStore (contatos s) (relacionamentos s) (tail (faults s))
                     (calls s ++ [c])) ∧
  reliable (MkStore (contatos s) (relacionamentos s) (tail (faults s))
                    (calls s ++ [c])).
Proof.
  unfold reliable, execute. cbn [faults].
  destruct (faults s) as [|b l]; [done|].
  intros [-> Hl]%Forall_cons. done.
Qed.

Lemma first_case_rels s s' w :
  relacionamentos s' = relacionamentos s → first_case s' w = first_case s w.
Proof. unfold first_case. by intros ->. Qed.

Lemma case_rows_rels s s' k :
  relacionamentos s' = relacionamentos s → case_rows s' k = case_rows s k.
Proof. unfold case_rows. by intros ->. Qed.

(** After a cascade that ran to its end, every other contact of the case
    it worked on is Won or Lost. *)
Lemma one_win_close_all_settles w now s n s1 k x :
  one_win_close_all w now s = (Ret n, s1) →
  first_case s w = Some k → x ∈ case_rows s k → x ≠ w →
  ∃ c, contatos s1 !! x = Some c ∧ terminal (status c).
Proof.
  intros Hrun Hk Hx Hne.
  destruct (one_win_close_all_cases w now s)
    as [(_ & _ & [[e He]|[_ Hnone]])|(k' & s0 & Hk' & _ & _ & Hloop)].
  - by rewrite Hrun in He.
  - congruence.
  - rewrite Hk in Hk'. injection Hk' as <-.
    rewrite Hrun in Hloop. symmetry in Hloop.
    by apply (close_loop_completed _ _ _ _ _ _ _ Hloop).
Qed.

Lemma move_to_stage_won_inv id now s msg s' :
  move_to_stage id "Won" now s = (Ret (true, msg), s') →
  ∃ n s1,
    msg = MarkedWon n ∧
    one_win_close_all id now s1 = (Ret n, s') ∧
    contatos s1 = alter (apply_fields (status_fields "Won" now)) id
                        (contatos s) ∧
    relacionamentos s1 = relacionamentos s.
Proof.
  unfold move_to_stage, mbind, M_bind. rewrite decide_True by done.
  rewrite update_contact_status_eq. cbv zeta.
  destruct (bool_decide (head (faults s) = Some true)); cbn [negb];
    [discriminate|].
  set (s1 := MkStore _ _ _ _).
  destruct (one_win_close_all id now s1) as [[n|e] s2] eqn:Hcas;
    [|discriminate].
  intros [= <- <-]. by exists n, s1.
Qed.

Lemma close_loop_app w now pre post : ∀ n s,
  close_loop w now (pre ++ post) n s =
  match close_loop w now pre n s with
  | (Ret n1, s1) => close_loop w now post n1 s1
  | (Raise e, s1) => (Raise e, s1)
  end.
Proof.
  induction pre as [|y pre IH]; intros n s; [reflexivity|].
  rewrite <- app_comm_cons, !close_loop_cons.
  destruct (close_sibling w now y n s) as [[n1|e] s1]; [apply IH|done].
Qed.

(** *** The cascade when every round trip succeeds *)

Lemma first_case_linked s w k : first_case s w = Some k → linked s k w.
Proof.
  unfold first_case, linked. intros Hk.
  destruct (filter (λ r, contato_id r = w) (relacionamentos s))
    as [|r l] eqn:Hf; [done|].
  injection Hk as <-. exists r.
  assert (r ∈ filter (λ r, contato_id r = w) (relacionamentos s)) as Hr.
  { rewrite Hf. by left. }
  apply list_elem_of_filter in Hr as [Hw Hr]. done.
Qed.

Lemma truthy_status_row v :
  Py.truthy_row (<["status" := v]> ∅) = true.
Proof.
  unfold Py.truthy_row. rewrite negb_true_iff, bool_decide_eq_false.
  apply insert_non_empty.
Qed.

Lemma close_sibling_reliable w now x n s :
  reliable s →
  (x ≠ w → is_Some (contatos s !! x)) →
  ∃ m s1, close_sibling w now x n s = (Ret m, s1) ∧ reliable s1 ∧
          ∀ y, is_Some (contatos s !! y) → is_Some (contatos s1 !! y).
Proof.
  intros Hrel Hex. unfold close_sibling.
  destruct (decide (x = w)) as [->|Hne]; [by exists n, s|].
  destruct (Hex Hne) as [c Hc].
  unfold mbind, M_bind, select_contato_single.
  destruct (execute_reliable (SelectSingle "contatos" "status" "id" x) s Hrel)
    as [-> Hrel1].
  cbn [contatos]. rewrite Hc, project_status, lookup_insert_eq.
  rewrite truthy_status_row.
  destruct (Py.not_in (status c) _).
  - unfold update_contato.
    match goal with |- context [execute ?c ?s0] =>
      destruct (execute_reliable c s0 Hrel1) as [-> Hrel2] end.
    eexists _, _. split; [reflexivity|]. split; [exact Hrel2|].
    intros y Hy. cbn [contatos].
    destruct (decide (x = y)) as [<-|Hxy].
    + rewrite lookup_alter_eq, Hc. by eexists.
    + by rewrite lookup_alter_ne.
  - eexists _, _. split; [reflexivity|]. split; [exact Hrel1|done].
Qed.

Lemma close_loop_reliable w now rows : ∀ n s,
  reliable s →
  (∀ x, x ∈ rows → x ≠ w → is_Some (contatos s !! x)) →
  ∃ m s', close_loop w now rows n s = (Ret m, s').
Proof.
  induction rows as [|y rest IH]; intros n s Hrel Hex; [by exists n, s|].
  rewrite close_loop_cons.
  destruct (close_sibling_reliable w now y n s Hrel)
    as (m & s1 & -> & Hrel1 & Hkeep).
  { intros Hne. apply Hex; [by left|done]. }
  apply IH; [done|]. intros x Hx Hne. apply Hkeep, Hex; [by right|done].
Qed.

Lemma one_win_close_all_reliable w now s k :
  reliable s →
  first_case s w = Some k →
  (∀ x, linked s k x → x ≠ w → is_Some (contatos s !! x)) →
  ∃ n s', one_win_close_all w now s = (Ret n, s').
Proof.
  intros Hrel Hk Hex.
  unfold one_win_close_all, mbind, M_bind, select_casos_of_contato.
  destruct (execute_reliable
              (Select "relacionamentos" "caso_id" "contato_id" w) s Hrel)
    as [-> Hrel1].
  cbn [relacionamentos]. unfold first_case in Hk.
  destruct (caso_id <$> filter _ (relacionamentos s)) as [|k' ?]; [done|].
  injection Hk as ->.
  unfold select_contatos_of_caso.
  match goal with |- context [execute ?c ?s0] =>
    destruct (execute_reliable c s0 Hrel1) as [-> Hrel2] end.
  cbn [relacionamentos]. fold (case_rows s k).
  apply close_loop_reliable; [exact Hrel2|].
  intros x Hx Hne. cbn [contatos]. apply Hex; [by apply elem_of_case_rows|done].
Qed.

(** The count a cascade returns is the number of contacts it newly set to
    Lost. *)
Lemma one_win_close_all_count w now s n s' :
  one_win_close_all w now s = (Ret n, s') →
  ∃ closed, NoDup closed ∧ length closed = n ∧
            ∀ x, x ∈ closed ↔ newly_closed s s' x.
Proof.
  intros Hrun.
  destruct (one_win_close_all_cases w now s)
    as [(Hc & _ & [[e He]|[Hret _]])|(k & s1 & _ & Hc1 & _ & Hloop)].
  - rewrite Hrun in He. done.
  - rewrite Hrun in Hret, Hc. simpl in Hret, Hc. injection Hret as ->.
    exists []. split; [constructor|]. split; [done|].
    intros x. split; [by intros ?%elem_of_nil|].
    intros (c & c' & Hx & Hnt & Hx' & Hl). exfalso. apply Hnt.
    rewrite Hc, Hx in Hx'. injection Hx' as ->. by right.
  - rewrite Hrun in Hloop. symmetry in Hloop.
    destruct (close_loop_count _ _ _ _ _ _ _ Hloop) as (L & HL & -> & Hmem).
    exists L. split; [done|]. split; [done|].
    intros x. rewrite Hmem. unfold newly_closed. by rewrite Hc1.
Qed.

(** *** The cascade when a sibling's write fails *)

(** The iteration for an eligible sibling whose read succeeds and whose
    write fails. *)
Lemma close_sibling_write_fails w now y n s c rest :
  y ≠ w → contatos s !! y = Some c → ¬ terminal (status c) →
  faults s = false :: true :: rest →
  close_sibling w now y n s
  = (Raise APIError,
     MkStore (contatos s) (relacionamentos s) rest
             (calls s ++ [SelectSingle "contatos" "status" "id" y;
                          close_update now y])).
Proof.
  intros Hne Hc Hnt Hf. unfold close_sibling. rewrite decide_False by done.
  unfold mbind, M_bind, select_contato_single, execute. rewrite Hf.
  cbn [contatos]. rewrite Hc, project_status, lookup_insert_eq.
  rewrite truthy_status_row.
  apply not_in_not_terminal in Hnt. rewrite Hnt.
  unfold update_contato, execute. cbn [faults tail contatos relacionamentos calls].
  by rewrite <- app_assoc.
Qed.

(** The cascade up to its loop, when its two reads succeed. *)
Lemma one_win_close_all_entry w now s k fs :
  faults s = false :: false :: fs →
  first_case s w = Some k →
  one_win_close_all w now s
  = close_loop w now (case_rows s k) 0
      (MkStore (contatos s) (relacionamentos s) fs
         (calls s ++ [Select "relacionamentos" "caso_id" "contato_id" w;
                      Select "relacionamentos" "contato_id" "caso_id" k])).
Proof.
  intros Hf Hk.
  unfold one_win_close_all, mbind, M_bind, select_casos_of_contato, execute.
  rewrite Hf. cbn [relacionamentos]. unfold first_case in Hk.
  destruct (caso_id <$> filter _ (relacionamentos s)) as [|k' ?]; [done|].
  injection Hk as ->.
  unfold select_contatos_of_caso, execute.
  cbn [faults tail contatos relacionamentos calls]. fold (case_rows s k).
  by rewrite <- app_assoc.
Qed.

(** *** Round trips that did not fail *)

Lemma clean_trips_refl s : clean_trips 0 s s.
Proof.
  unfold clean_trips. rewrite Nat.add_0_r, drop_0, take_0.
  split; [done|]. split; [done|constructor].
Qed.

Lemma Forall_take_add {A} (P : A → Prop) (k1 k2 : nat) : ∀ l : list A,
  Forall P (take k1 l) → Forall P (take k2 (drop k1 l)) →
  Forall P (take (k1 + k2) l).
Proof.
  induction k1 as [|k1 IH]; intros l H1 H2; [done|].
  destruct l as [|a l]; [by rewrite take_nil|].
  cbn [Nat.add take drop] in *. apply Forall_cons in H1 as [Ha H1].
  constructor; [done|]. by apply IH.
Qed.

Lemma clean_trips_trans k1 k2 s s1 s2 :
  clean_trips k1 s s1 → clean_trips k2 s1 s2 → clean_trips (k1 + k2) s s2.
Proof.
  intros (Hc1 & Hf1 & Hok1) (Hc2 & Hf2 & Hok2). unfold clean_trips.
  rewrite Hc2, Hc1, Hf2, Hf1, drop_drop. split; [lia|]. split; [done|].
  apply Forall_take_add; [done|]. by rewrite <- Hf1.
Qed.

Lemma clean_trips_next s tbl rels c :
  head (faults s) ≠ Some true →
  clean_trips 1 s (MkStore tbl rels (tail (faults s)) (calls s ++ [c])).
Proof.
  intros Hh. unfold clean_trips. cbn [calls faults].
  rewrite length_app. split; [done|].
  destruct (faults s) as [|[] l]; [done|done|].
  split; [done|]. repeat constructor.
Qed.

Lemma execute_cases c s :
  let s' := MkStore (contatos s) (relacionamentos s) (tail (faults s))
                    (calls s ++ [c]) in
  (execute c s = (Ret (), s') ∧ head (faults s) ≠ Some true) ∨
  execute c s = (Raise APIError, s').
Proof. unfold execute. destruct (faults s) as [|[] l]; auto. Qed.

Lemma close_sibling_clean w now x n s m s1 :
  close_sibling w now x n s = (Ret m, s1) → ∃ k, clean_trips k s s1.
Proof.
  unfold close_sibling. destruct (decide (x = w)) as [->|Hne].
  { intros [= <- <-]. exists 0. apply clean_trips_refl. }
  unfold mbind, M_bind, select_contato_single.
  destruct (execute_cases (SelectSingle "contatos" "status" "id" x) s)
    as [[-> Hh]| ->]; [|discriminate].
  cbn [contatos]. destruct (contatos s !! x) as [c|]; [|discriminate].
  rewrite project_status, lookup_insert_eq, truthy_status_row.
  destruct (Py.not_in (status c) _).
  - unfold update_contato.
    match goal with |- context [execute ?c ?s0] =>
      destruct (execute_cases c s0) as [[-> Hh2]| ->] end; [|discriminate].
    intros [= <- <-]. exists (1 + 1).
    eapply clean_trips_trans; [by apply clean_trips_next|].
    by apply (clean_trips_next (MkStore _ _ _ _)).
  - intros [= <- <-]. exists 1. by apply clean_trips_next.
Qed.

Lemma close_loop_clean w now rows : ∀ n s m s',
  close_loop w now rows n s = (Ret m, s') → ∃ k, clean_trips k s s'.
Proof.
  induction rows as [|y rest IH]; intros n s m s'.
  { intros [= <- <-]. exists 0. apply clean_trips_refl. }
  rewrite close_loop_cons.
  destruct (close_sibling w now y n s) as [[n1|e] s1] eqn:Hy; [|discriminate].
  intros Hrest.
  destruct (close_sibling_clean _ _ _ _ _ _ _ Hy) as [k1 H1].
  destruct (IH _ _ _ _ Hrest) as [k2 H2].
  exists (k1 + k2). by eapply clean_trips_trans.
Qed.

Lemma one_win_close_all_clean w now s n s' :
  one_win_close_all w now s = (Ret n, s') → ∃ k, clean_trips k s s'.
Proof.
  unfold one_win_close_all, mbind, M_bind, select_casos_of_contato.
  destruct (execute_cases
              (Select "relacionamentos" "caso_id" "contato_id" w) s)
    as [[-> Hh]| ->]; [|discriminate].
  cbn [relacionamentos].
  destruct (caso_id <$> filter _ (relacionamentos s)) as [|k' ?].
  { intros [= <- <-]. exists 1. by apply clean_trips_next. }
  unfold select_contatos_of_caso.
  match goal with |- context [execute ?c ?s0] =>
    destruct (execute_cases c s0) as [[-> Hh2]| ->] end; [|discriminate].
  intros Hloop. destruct (close_loop_clean _ _ _ _ _ _ _ Hloop) as [k Hk].
  exists (1 + (1 + k)).
  eapply clean_trips_trans; [by apply clean_trips_next|].
  eapply clean_trips_trans; [|exact Hk].
  by apply (clean_trips_next (MkStore _ _ _ _)).
Qed.

(** *** The properties of the engine *)

Ltac rows_cases H :=
  repeat (apply elem_of_cons in H as [->|H]); [..|by apply elem_of_nil in H].

(** C1, as the specification states it: for every case, from a store with
    at most one winner on that case, every sequence of transitions ends in
    a store with at most one winner on that case.  This fails: in [family]
    contact C is the only winner of case K, and moving A to Won leaves both
    A and C Won, because the cascade passes over contacts that are already
    Won. *)
Lemma single_winner_violated :
  ¬ (∀ s caso ops, single_winner s caso → single_winner (run ops s) caso).
Proof.
  intros Hclaim.
  assert (single_winner family "K") as Hfam.
  { intros c1 c2 (r1 & Hr1 & _ & <-) (r2 & Hr2 & _ & <-) W1 W2.
    simpl in Hr1, Hr2. rows_cases Hr1; rows_cases Hr2;
      solve [reflexivity | vm_compute in W1; discriminate
            | vm_compute in W2; discriminate]. }
  specialize (Hclaim family "K" [("A", "Won", noon)] Hfam "A" "C").
  assert ("A" = "C") as Habs; [|discriminate Habs].
  apply Hclaim.
  - exists (Relacionamento "r1" "K" "A" (Some "son")).
    split; [|done]. vm_compute. set_solver.
  - exists (Relacionamento "r3" "K" "C" None).
    split; [|done]. vm_compute. set_solver.
  - reflexivity.
  - reflexivity.
Qed.

(** C1, amended: for every case, from a store with at most one winner on
    that case, every sequence of transitions in which each transition to
    Won of a contact linked to that case is applied when no other contact
    linked to that case is Won, ends in a store with at most one winner on
    that case.  Nothing is assumed of the other cases, and this holds
    whatever round trips fail on the way. *)
Theorem single_winner_guarded (caso : string)
    (ops : list (string * string * clock)) : ∀ s,
  single_winner s caso → guarded caso ops s → single_winner (run ops s) caso.
Proof.
  induction ops as [|[[id st] now] rest IH]; intros s Hinv Hg; [done|].
  destruct Hg as [Hhead Hrest]. simpl. apply IH; [|done].
  by apply move_to_stage_single_winner.
Qed.

Lemma single_winner_guarded_witness :
  single_winner (run [("C", "In Progress", noon); ("A", "Won", noon)] family)
                "K" ∧
  won (run [("C", "In Progress", noon); ("A", "Won", noon)] family) "A".
Proof.
  split; [|reflexivity].
  apply single_winner_guarded.
  - intros c1 c2 (r1 & Hr1 & _ & <-) (r2 & Hr2 & _ & <-) W1 W2.
    simpl in Hr1, Hr2. rows_cases Hr1; rows_cases Hr2;
      solve [reflexivity | vm_compute in W1; discriminate
            | vm_compute in W2; discriminate].
  - split; [discriminate|]. split; [|exact I].
    intros _ _ c (r & Hr & _ & <-) W.
    rewrite move_to_stage_rels in Hr. simpl in Hr.
    rows_cases Hr; solve [reflexivity | vm_compute in W; discriminate].
Defined.

(** C2 fails: W is linked to K1 and to K2, the transition succeeds and
    closes the relative of K1, and X, an eligible relative of K2, stays
    New. *)
Lemma cascade_misses_second_case :
  (move_to_stage "W" "Won" noon two_cases).1 = Ret (true, MarkedWon 1) ∧
  status_of (move_to_stage "W" "Won" noon two_cases).2 "X"
  = Some (Some "New") ∧
  ¬ cascade_covers_all_cases two_cases "W" noon.
Proof.
  split; [reflexivity|]. split; [reflexivity|].
  intros Hclaim.
  specialize (Hclaim "K2" "X" (blank "New" None)).
  assert (Some (Some "New") = Some (Some "Lost")) as Habs; [|discriminate Habs].
  apply Hclaim.
  - exists (Relacionamento "r3" "K2" "W" (Some "nephew")).
    split; [|done]. simpl. set_solver.
  - exists (Relacionamento "r4" "K2" "X" (Some "son")).
    split; [|done]. simpl. set_solver.
  - discriminate.
  - reflexivity.
  - intros [H|H]; discriminate H.
Qed.

(** C2, amended: the cascade resolves one case only, the case of the first
    relationship row the store returns for the winner.  It leaves untouched
    every contact that is not linked to that case (so the relatives of the
    winner's other cases are not closed), and when it runs to its end every
    eligible other contact of that case is Lost. *)
Theorem cascade_scope_first_case (s : store) (w : string) (now : clock) :
  (∀ x, (∀ caso, first_case s w = Some caso → ¬ linked s caso x) →
        contatos (one_win_close_all w now s).2 !! x = contatos s !! x) ∧
  (∀ caso n x c,
     first_case s w = Some caso →
     (one_win_close_all w now s).1 = Ret n →
     linked s caso x → x ≠ w →
     contatos s !! x = Some c → ¬ terminal (status c) →
     status_of (one_win_close_all w now s).2 x = Some (Some "Lost")).
Proof.
  split.
  - intros x Hx.
    destruct (one_win_close_all_only_closes w now s x)
      as [Heq|(k & c & Hk & Hl & _)]; [done|].
    by destruct (Hx k Hk).
  - intros k n x c Hk Hret Hl Hne Hc Hnt. unfold status_of.
    destruct (one_win_close_all_only_closes w now s x)
      as [Heq|(k' & c' & _ & _ & _ & _ & _ & ->)]; [|done].
    exfalso.
    destruct (one_win_close_all_cases w now s)
      as [(_ & _ & [[e He]|[_ Hnone]])|(k' & s1 & Hk' & Hc1 & Hr1 & Hrun)].
    + congruence.
    + congruence.
    + rewrite Hk in Hk'. injection Hk' as <-.
      destruct (one_win_close_all w now s) as [r s'] eqn:Hres.
      simpl in Hret, Heq. subst r. symmetry in Hrun.
      destruct (close_loop_completed _ _ _ _ _ _ _ Hrun x)
        as (c' & Hc' & Ht); [by apply elem_of_case_rows|done|].
      rewrite Heq, Hc in Hc'. injection Hc' as <-. done.
Qed.

Lemma cascade_scope_first_case_witness :
  contatos (one_win_close_all "W" noon two_cases).2 !! "X"
  = contatos two_cases !! "X" ∧
  status_of (one_win_close_all "W" noon two_cases).2 "Y"
  = Some (Some "Lost").
Proof.
  split.
  - apply (proj1 (cascade_scope_first_case two_cases "W" noon)).
    intros k [= <-] (r & Hr & Hk & Hx). simpl in Hr.
    rows_cases Hr; discriminate.
  - apply (proj2 (cascade_scope_first_case two_cases "W" noon)
             "K1" 1 "Y" (blank "In Progress" None)).
    + reflexivity.
    + reflexivity.
    + exists (Relacionamento "r2" "K1" "Y" (Some "wife")).
      split; [|done]. simpl. set_solver.
    + discriminate.
    + reflexivity.
    + intros [H|H]; discriminate H.
Defined.

(** C3, as the specification states it, fails when the case is not the one
    of the winner's first relationship row.  In [family2] case K has the
    relatives A (New), B (Attempted), C (Won) and D (Lost), and the first
    row the store returns for A is on case K0: moving A to Won succeeds
    with a closed count of 0 and B stays Attempted. *)
Lemma cascade_skips_later_case :
  case_rows family2 "K" = ["A"; "B"; "C"; "D"] ∧
  status_of family2 <$> ["A"; "B"; "C"; "D"]
  = [Some (Some "New"); Some (Some "Attempted");
     Some (Some "Won"); Some (Some "Lost")] ∧
  (move_to_stage "A" "Won" noon family2).1 = Ret (true, MarkedWon 0) ∧
  status_of (move_to_stage "A" "Won" noon family2).2
    <$> ["A"; "B"; "C"; "D"]
  = [Some (Some "Won"); Some (Some "Attempted");
     Some (Some "Won"); Some (Some "Lost")].
Proof. repeat split; reflexivity. Qed.

(** C3, amended: on the case of the winner's first relationship row, when
    the round trips succeed and the contacts linked to the case exist, the
    transition to Won returns [True] with a closed count; the winner is
    Won and its row is otherwise as its own status write left it; every
    other contact that was already Won or Lost keeps its row;
    every other contact linked to the case that was neither is Lost; and
    the closed count is the number of contacts newly set to Lost, which are
    exactly those.  In [family] this gives A Won, B Lost, C and D unchanged
    and a count of 1. *)
Theorem cascade_correctness (s : store) (w caso : string) (now : clock) :
  reliable s →
  first_case s w = Some caso →
  (∀ x, linked s caso x → is_Some (contatos s !! x)) →
  ∃ n s',
    move_to_stage w "Won" now s = (Ret (true, MarkedWon n), s') ∧
    status_of s' w = Some (Some "Won") ∧
    (∀ c, contatos s !! w = Some c →
          contatos s' !! w
          = Some (apply_fields (status_fields "Won" now) c)) ∧
    (∀ x c, x ≠ w → contatos s !! x = Some c → terminal (status c) →
            contatos s' !! x = Some c) ∧
    (∀ x, eligible s caso w x → status_of s' x = Some (Some "Lost")) ∧
    ∃ closed, NoDup closed ∧ length closed = n ∧
              ∀ x, (x ∈ closed ↔ newly_closed s s' x) ∧
                   (newly_closed s s' x ↔ eligible s caso w x).
Proof.
  intros Hrel Hk Hex.
  destruct (Hex w (first_case_linked _ _ _ Hk)) as [c0 Hc0].
  assert (head (faults s) ≠ Some true ∧
          Forall (λ b, b = false) (tail (faults s))) as [Hhead Htail].
  { unfold reliable in Hrel. destruct (faults s) as [|b l]; [done|].
    apply Forall_cons in Hrel as [-> Hl]. done. }
  set (s1 := MkStore (alter (apply_fields (status_fields "Won" now)) w
                            (contatos s))
                     (relacionamentos s) (tail (faults s))
                     (calls s ++ [Update "contatos" (status_fields "Won" now)
                                         "id" w])).
  assert (∀ x, x ≠ w → contatos s1 !! x = contatos s !! x) as Hother.
  { intros x Hx. subst s1. cbn [contatos]. by rewrite lookup_alter_ne. }
  assert (contatos s1 !! w = Some (apply_fields (status_fields "Won" now) c0))
    as Hw1.
  { subst s1. cbn [contatos]. by rewrite lookup_alter_eq, Hc0. }
  assert (first_case s1 w = Some caso) as Hk1 by done.
  destruct (one_win_close_all_reliable w now s1 caso) as (n & s' & Hcas);
    [done|done| |].
  { intros x Hx Hne. rewrite Hother by done. by apply Hex. }
  assert (∀ x, contatos s' !! x = contatos s1 !! x ∨
               ∃ c, linked s caso x ∧ x ≠ w ∧ contatos s !! x = Some c ∧
                    ¬ terminal (status c) ∧
                    contatos s' !! x = Some (closed_contato now c)) as Hrows.
  { intros x.
    replace s' with (one_win_close_all w now s1).2 by by rewrite Hcas.
    destruct (one_win_close_all_only_closes w now s1 x)
      as [Heq|(k & c & Hk' & Hl & Hne & Hc & Hnt & Heq)]; [by left|right].
    rewrite Hk1 in Hk'. injection Hk' as <-.
    exists c. rewrite <- Hother by done. done. }
  assert (contatos s' !! w = Some (apply_fields (status_fields "Won" now) c0))
    as Hw'.
  { destruct (Hrows w) as [->|(c & _ & Hne & _)]; done. }
  assert (∀ x, eligible s caso w x → status_of s' x = Some (Some "Lost"))
    as Hlost.
  { intros x (Hl & Hne & c & Hc & Hnt). unfold status_of.
    destruct (Hrows x) as [Heq|(c' & _ & _ & _ & _ & ->)]; [|done].
    exfalso.
    destruct (one_win_close_all_settles w now s1 n s' caso x Hcas Hk1)
      as (c' & Hc' & Ht); [by apply elem_of_case_rows|done|].
    rewrite Heq, Hother, Hc in Hc' by done. injection Hc' as <-. done. }
  assert (∀ x, newly_closed s1 s' x → eligible s caso w x) as HA.
  { intros x (c & c' & Hc & Hnt & Hc' & Hl').
    assert (x ≠ w) as Hne.
    { intros ->. rewrite Hw1 in Hc. injection Hc as <-. apply Hnt. by left. }
    destruct (Hrows x) as [Heq|(c2 & Hl & _ & Hc2 & Hnt2 & _)].
    - rewrite Heq, Hc in Hc'. injection Hc' as <-.
      destruct Hnt. by right.
    - split; [done|]. split; [done|]. by exists c2. }
  assert (∀ x, eligible s caso w x → newly_closed s s' x) as HB.
  { intros x Hx. pose proof (Hlost x Hx) as Hst.
    destruct Hx as (_ & _ & c & Hc & Hnt). unfold status_of in Hst.
    destruct (contatos s' !! x) as [c'|] eqn:Hc'; [|done].
    exists c, c'. injection Hst as Hst. done. }
  assert (∀ x, newly_closed s s' x → newly_closed s1 s' x) as HC.
  { intros x (c & c' & Hc & Hnt & Hc' & Hl').
    assert (x ≠ w) as Hne.
    { intros ->. rewrite Hw' in Hc'. injection Hc' as <-. done. }
    exists c, c'. by rewrite Hother. }
  exists n, s'. split; [|split; [|split; [|split; [|split]]]].
  - unfold move_to_stage, mbind, M_bind. rewrite decide_True by done.
    rewrite update_contact_status_eq. cbv zeta.
    rewrite bool_decide_eq_false_2 by done. cbn [negb].
    fold s1. by rewrite Hcas.
  - unfold status_of. by rewrite Hw'.
  - intros c Hc. rewrite Hc0 in Hc. injection Hc as <-. exact Hw'.
  - intros x c Hne Hc Ht.
    destruct (Hrows x) as [->|(c' & _ & _ & Hc' & Hnt & _)].
    + by rewrite Hother.
    + rewrite Hc in Hc'. injection Hc' as <-. done.
  - exact Hlost.
  - destruct (one_win_close_all_count _ _ _ _ _ Hcas)
      as (closed & Hnd & Hlen & Hmem).
    exists closed. split; [done|]. split; [done|].
    intros x. rewrite Hmem. split; split; auto.
Qed.

Lemma cascade_correctness_witness :
  ∃ n s',
    move_to_stage "A" "Won" noon family = (Ret (true, MarkedWon n), s') ∧
    n = 1 ∧
    status_of s' "A" = Some (Some "Won") ∧
    status_of s' "B" = Some (Some "Lost") ∧
    contatos s' !! "C" = contatos family !! "C" ∧
    contatos s' !! "D" = contatos family !! "D".
Proof.
  destruct (cascade_correctness family "A" "K" noon)
    as (n & s' & Hrun & HA & _ & Hkeep & Hlost & _).
  - constructor.
  - reflexivity.
  - intros x (r & Hr & _ & <-). simpl in Hr.
    rows_cases Hr; by eexists.
  - exists n, s'. split; [exact Hrun|].
    assert ((move_to_stage "A" "Won" noon family).1
            = Ret (true, MarkedWon 1)) as Hn by reflexivity.
    rewrite Hrun in Hn. injection Hn as ->.
    split; [done|]. split; [exact HA|]. split; [|split].
    + apply Hlost. split; [|split; [discriminate|]].
      * exists (Relacionamento "r2" "K" "B" (Some "daughter")).
        split; [|done]. simpl. set_solver.
      * exists (blank "Attempted" (Some "foo")). split; [reflexivity|].
        intros [H|H]; discriminate H.
    + apply (Hkeep "C" (blank "Won" None)); [discriminate|reflexivity|].
      by left.
    + apply (Hkeep "D" (blank "Lost" None)); [discriminate|reflexivity|].
      by right.
Defined.

(** C4 is not what the code does: the cascade reads the sibling's row with
    [select('status')], so the dict it gets has no [notes] entry and the
    notes it writes back are the audit line alone.  B of [family] had notes
    "foo"; after A is moved to Won its notes are the audit line and "foo"
    is gone.  In general a row of [contatos] is, after the cascade, either
    as it was or has exactly the audit line as its notes. *)
Theorem cascade_overwrites_notes :
  (notes_of family "B" = Some (Some "foo") ∧
   status_of (move_to_stage "A" "Won" noon family).2 "B"
   = Some (Some "Lost") ∧
   notes_of (move_to_stage "A" "Won" noon family).2 "B"
   = Some (Some (audit_line noon)) ∧
   ∀ rest, audit_line noon ≠ "foo" +:+ rest) ∧
  (∀ s w now x,
     contatos (one_win_close_all w now s).2 !! x = contatos s !! x ∨
     notes_of (one_win_close_all w now s).2 x = Some (Some (audit_line now))).
Proof.
  split.
  - repeat split; try reflexivity. intros rest. discriminate.
  - intros s w now x.
    destruct (one_win_close_all_only_closes w now s x)
      as [Heq|(k & c & _ & _ & _ & _ & _ & Heq)]; [by left|right].
    unfold notes_of. by rewrite Heq.
Qed.

(** C5 fails: in [flaky] the only round trip that fails is the update of
    sibling B.  The exception leaves [move_to_stage], so no count is
    returned, and sibling E is never read or written: it stays New. *)
Lemma sibling_failure_aborts_cascade :
  (move_to_stage "A" "Won" noon flaky).1 = Raise APIError ∧
  calls (move_to_stage "A" "Won" noon flaky).2
  = [Update "contatos" (status_fields "Won" noon) "id" "A";
     Select "relacionamentos" "caso_id" "contato_id" "A";
     Select "relacionamentos" "contato_id" "caso_id" "K";
     SelectSingle "contatos" "status" "id" "B";
     Update "contatos"
       [("status", Some "Lost"); ("notes", Some (audit_line noon));
        ("status_updated_at", Some (isoformat noon))] "id" "B"] ∧
  status_of (move_to_stage "A" "Won" noon flaky).2 "E" = Some (Some "New") ∧
  ¬ writes_attempted_independently flaky "A" noon.
Proof.
  split; [reflexivity|]. split; [reflexivity|]. split; [reflexivity|].
  intros Hclaim.
  destruct (Hclaim "K" "E" (blank "New" None)) as [fields Hin].
  - reflexivity.
  - exists (Relacionamento "r3" "K" "E" None). split; [|done].
    simpl. set_solver.
  - discriminate.
  - reflexivity.
  - intros [H|H]; discriminate H.
  - remember (calls (move_to_stage "A" "Won" noon flaky).2) as trace
      eqn:Htrace.
    vm_compute in Htrace. subst trace.
    repeat (apply elem_of_cons in Hin as [Heq|Hin]; [discriminate Heq|]).
    by apply elem_of_nil in Hin.
Qed.

(** C5, amended: the cascade does not handle a failing sibling write.  In a
    transition to Won whose own write and opening reads succeed, let the
    rows before sibling [y] be processed, [y] be another contact that is
    neither Won nor Lost, and the next two entries of the failure schedule
    say that its read succeeds and its write fails.  Then the transition
    raises, so no closed count is returned; the trace ends with the failed
    write, so the rows after [y] are neither read nor written; the table is
    as the loop left it before [y], and every contact that no earlier row
    names still has the row it had before the transition.  Conversely, a
    transition to Won returns a closed count only when every round trip it
    made succeeded: a failed write is never left out of a returned count. *)
Theorem sibling_failure_propagates :
  (∀ (s : store) (w caso : string) (now : clock) (pre post : list string)
     (y : string) (fs rest : list bool) (n1 : nat) (s1 : store) (c : contato),
     faults s = false :: false :: false :: fs →
     first_case s w = Some caso →
     case_rows s caso = (pre ++ y :: post)%list →
     close_loop w now pre 0 (loop_entry s w caso now fs) = (Ret n1, s1) →
     y ≠ w → contatos s1 !! y = Some c → ¬ terminal (status c) →
     faults s1 = false :: true :: rest →
     move_to_stage w "Won" now s
     = (Raise APIError,
        MkStore (contatos s1) (relacionamentos s) rest
                (calls s1 ++ [SelectSingle "contatos" "status" "id" y;
                              close_update now y])%list) ∧
     (∀ x, x ≠ w → x ∉ pre → contatos s1 !! x = contatos s !! x)) ∧
  (∀ (s : store) (w : string) (now : clock) (n : nat) (s' : store),
     move_to_stage w "Won" now s = (Ret (true, MarkedWon n), s') →
     ∃ k, clean_trips k s s').
Proof.
  split.
  - intros s w caso now pre post y fs rest n1 s1 c
      Hf Hk Hrows Hpre Hne Hc Hnt Hf1. split.
    + unfold move_to_stage, mbind, M_bind. rewrite decide_True by done.
      rewrite update_contact_status_eq. cbv zeta. rewrite Hf.
      rewrite bool_decide_eq_false_2 by done. cbn [negb tail].
      erewrite one_win_close_all_entry; [|reflexivity|exact Hk].
      cbn [contatos relacionamentos calls]. rewrite <- app_assoc.
      change (close_loop w now
                (case_rows (MkStore _ (relacionamentos s) _ _) caso) 0 _)
        with (close_loop w now (case_rows s caso) 0
                         (loop_entry s w caso now fs)).
      rewrite Hrows, close_loop_app, Hpre, close_loop_cons.
      rewrite (close_sibling_write_fails w now y n1 s1 c rest) by done.
      f_equal. f_equal.
      replace s1 with (close_loop w now pre 0 (loop_entry s w caso now fs)).2
        by by rewrite Hpre.
      by rewrite close_loop_rels.
    + intros x Hx Hpre'.
      replace s1 with (close_loop w now pre 0 (loop_entry s w caso now fs)).2
        by by rewrite Hpre.
      rewrite close_loop_skips by (right; by left).
      unfold loop_entry. cbn [contatos]. by rewrite lookup_alter_ne.
  - intros s w now n s'.
    unfold move_to_stage, mbind, M_bind. rewrite decide_True by done.
    rewrite update_contact_status_eq. cbv zeta.
    destruct (bool_decide (head (faults s) = Some true)) eqn:Hh;
      cbn [negb]; [discriminate|].
    apply bool_decide_eq_false in Hh.
    set (s0 := MkStore _ _ _ _).
    destruct (one_win_close_all w now s0) as [[m|e] s2] eqn:Hcas;
      [|discriminate].
    intros [= <- <-].
    destruct (one_win_close_all_clean _ _ _ _ _ Hcas) as [k Hk].
    exists (1 + k). eapply clean_trips_trans; [|exact Hk].
    by apply clean_trips_next.
Qed.

Lemma sibling_failure_propagates_witness :
  ((move_to_stage "A" "Won" noon flaky).1 = Raise APIError ∧
   contatos (move_to_stage "A" "Won" noon flaky).2 !! "E"
   = contatos flaky !! "E") ∧
  ∃ k, clean_trips k flaky_free (move_to_stage "A" "Won" noon flaky_free).2.
Proof.
  split.
  - destruct (proj1 sibling_failure_propagates
                flaky "A" "K" noon ["A"] ["E"] "B"
                [false; true] [] 0
                (loop_entry flaky "A" "K" noon [false; true])
                (blank "Attempted" None)) as [Hrun Hkeep];
      try reflexivity; try discriminate.
    + intros [H|H]; discriminate H.
    + rewrite Hrun. split; [reflexivity|]. cbn [snd contatos].
      apply Hkeep; [discriminate|].
      intros Hin%list_elem_of_singleton. discriminate Hin.
  - apply (proj2 sibling_failure_propagates flaky_free "A" noon 2).
    reflexivity.
Defined.

(** C6 fails: [move_to_stage] has no check of the target stage.  With the
    stage "Archived", which is not one of the five, it makes a store call,
    reports success, and the contact's stored status is "Archived". *)
Lemma invalid_stage_is_written :
  ("Archived" ∉ PIPELINE_STAGES) ∧
  (move_to_stage "A" "Archived" noon family).1
  = Ret (true, MovedTo "Archived") ∧
  calls (move_to_stage "A" "Archived" noon family).2
  = [Update "contatos" (status_fields "Archived" noon) "id" "A"] ∧
  status_of family "A" = Some (Some "New") ∧
  status_of (move_to_stage "A" "Archived" noon family).2 "A"
  = Some (Some "Archived").
Proof.
  split; [|repeat split; reflexivity].
  unfold PIPELINE_STAGES. intros Hin.
  repeat (apply elem_of_cons in Hin as [Heq|Hin]; [discriminate Heq|]).
  by apply elem_of_nil in Hin.
Qed.

(** C6, amended: the target stage is not validated.  For every target
    other than "Won", one of the five or not, the transition makes exactly
    one store call, the status update with that value; when that round trip
    succeeds the transition reports success with the message "Moved to
    <stage>" and an existing contact's stored status is the given value. *)
Theorem move_to_stage_unvalidated (id st : string) (now : clock) (s : store) :
  st ≠ "Won" →
  head (faults s) ≠ Some true →
  (move_to_stage id st now s
   = (Ret (true, MovedTo st),
      MkStore (alter (apply_fields (status_fields st now)) id (contatos s))
              (relacionamentos s) (tail (faults s))
              (calls s ++ [Update "contatos" (status_fields st now) "id" id])))
  ∧ (is_Some (contatos s !! id) →
     status_of (move_to_stage id st now s).2 id = Some (Some st)).
Proof.
  intros Hst Hok.
  assert (move_to_stage id st now s
          = (Ret (true, MovedTo st),
             MkStore (alter (apply_fields (status_fields st now)) id
                            (contatos s))
                     (relacionamentos s) (tail (faults s))
                     (calls s ++ [Update "contatos" (status_fields st now)
                                         "id" id]))) as Heq.
  { unfold move_to_stage. destruct (decide (st = "Won")); [done|].
    unfold update_contact_status, try_except, update_contato, execute,
      mbind, M_bind.
    destruct (faults s) as [|[] ?]; simpl in *;
      [reflexivity|by destruct Hok|reflexivity]. }
  split; [done|]. intros [c Hc]. rewrite Heq. unfold status_of. simpl.
  by rewrite lookup_alter_eq, Hc.
Qed.

Lemma move_to_stage_unvalidated_witness :
  status_of (move_to_stage "A" "Archived" noon family).2 "A"
  = Some (Some "Archived").
Proof.
  apply (move_to_stage_unvalidated "A" "Archived" noon family).
  - discriminate.
  - discriminate.
  - by exists (blank "New" None).
Defined.

(** C7: when the status write for the winner fails, the transition to Won
    returns failure with the message "Failed to update status"; that
    update is the only store call made, so the cascade does not run and no
    count is produced; and table [contatos] is as it was, the winner's
    status included. *)
Theorem failed_winner_write_aborts (id : string) (now : clock) (s : store) :
  head (faults s) = Some true →
  move_to_stage id "Won" now s
  = (Ret (false, FailedUpdate),
     MkStore (contatos s) (relacionamentos s) (tail (faults s))
             (calls s ++ [Update "contatos" (status_fields "Won" now)
                                 "id" id])).
Proof.
  intros Hfail. unfold move_to_stage, update_contact_status, try_except,
    update_contato, execute, mbind, M_bind. simpl.
  destruct (faults s) as [|[] ?]; try discriminate Hfail. reflexivity.
Qed.

Lemma failed_winner_write_aborts_witness :
  move_to_stage "A" "Won" noon (with_faults [true] family)
  = (Ret (false, FailedUpdate),
     MkStore (contatos family) (relacionamentos family) []
             [Update "contatos" (status_fields "Won" noon) "id" "A"]).
Proof.
  apply (failed_winner_write_aborts "A" noon (with_faults [true] family)).
  reflexivity.
Defined.

(** *** Further properties of the write-back functions *)

Lemma update_contact_notes_eq id text s :
  update_contact_notes id text s =
  let failed := bool_decide (head (faults s) = Some true) in
  (Ret (negb failed),
   MkStore (if failed then contatos s
            else alter (apply_fields [("notes", Some text)]) id (contatos s))
           (relacionamentos s) (tail (faults s))
           (calls s ++ [Update "contatos" [("notes", Some text)] "id" id])).
Proof.
  unfold update_contact_notes, try_except, update_contato, execute,
    mbind, M_bind.
  by destruct (faults s) as [|[] ?].
Qed.

(** How a transition changes a row of [contatos], whatever round trips
    fail: the row is as it was, or it is the target's row with the new
    status and timestamp, or (transition to Won) it is the row of another
    contact of the winner's first case, not Won or Lost before, closed by
    the cascade. *)
Lemma move_to_stage_rows id st now s x :
  contatos (move_to_stage id st now s).2 !! x = contatos s !! x ∨
  (x = id ∧ ∃ c, contatos s !! id = Some c ∧
                 contatos (move_to_stage id st now s).2 !! id
                 = Some (apply_fields (status_fields st now) c)) ∨
  (x ≠ id ∧ st = "Won" ∧
   ∃ k c, first_case s id = Some k ∧ linked s k x ∧
          contatos s !! x = Some c ∧ ¬ terminal (status c) ∧
          contatos (move_to_stage id st now s).2 !! x
          = Some (closed_contato now c)).
Proof.
  unfold move_to_stage, mbind, M_bind.
  destruct (decide (st = "Won")) as [->|Hst];
    rewrite update_contact_status_eq; cbv zeta;
    destruct (bool_decide (head (faults s) = Some true));
    unfold mret, M_ret; cbn [fst snd contatos negb]; auto.
  - set (s1 := MkStore _ _ _ _).
    assert (contatos s1 = alter (apply_fields (status_fields "Won" now)) id
                                (contatos s)) as Hs1 by done.
    assert (relacionamentos s1 = relacionamentos s) as Hr1 by done.
    pose proof (one_win_close_all_only_closes id now s1 x) as H.
    clearbody s1.
    assert (∀ o s2, (one_win_close_all id now s1) = (o, s2) →
              contatos (match o with
                        | Ret a => (Ret (true, MarkedWon a), s2)
                        | Raise e => (Raise e, s2)
                        end).2 = contatos s2) as Hout.
    { by intros [n|e] s2 _. }
    destruct (one_win_close_all id now s1) as [o s2].
    unfold mret, M_ret. rewrite (Hout o s2 eq_refl). simpl in H.
    destruct H as [Heq|(k & c & Hk & Hl & Hne & Hc & Hnt & Heq)].
    + rewrite Heq, Hs1. destruct (decide (x = id)) as [->|Hx].
      * rewrite lookup_alter_eq.
        destruct (contatos s !! id) as [c|] eqn:Hc; [|by left].
        right. left. split; [done|]. exists c. split; [done|].
        by rewrite Heq, Hs1, lookup_alter_eq, Hc.
      * left. by rewrite lookup_alter_ne.
    + right. right. rewrite Hs1, lookup_alter_ne in Hc by done.
      split; [done|]. split; [done|]. exists k, c.
      unfold first_case, linked in *. rewrite Hr1 in Hk, Hl. done.
  - destruct (decide (x = id)) as [->|Hx].
    + rewrite lookup_alter_eq.
      destruct (contatos s !! id) as [c|] eqn:Hc; [|by left].
      right. left. split; [done|]. by exists c.
    + left. by rewrite lookup_alter_ne.
Qed.

(** X1: a transition leaves the row of every other contact as it was,
    unless the target stage is Won and the contact is linked to the
    winner's first case and is not yet Won or Lost.  This holds whatever
    round trips fail and whatever the outcome is. *)
Theorem transition_scope (id st : string) (now : clock) (s : store)
    (x : string) :
  x ≠ id →
  (st ≠ "Won" ∨
   (∃ c, contatos s !! x = Some c ∧ terminal (status c)) ∨
   (∀ k, first_case s id = Some k → ¬ linked s k x)) →
  contatos (move_to_stage id st now s).2 !! x = contatos s !! x.
Proof.
  intros Hx Hwhy.
  destruct (move_to_stage_rows id st now s x)
    as [H|[[-> _]|(_ & -> & k & c & Hk & Hl & Hc & Hnt & _)]]; [done..|].
  destruct Hwhy as [?|[(c' & Hc' & Ht)|Hnl]]; [done| |by destruct (Hnl k)].
  rewrite Hc in Hc'. by injection Hc' as <-.
Qed.

Lemma transition_scope_witness :
  contatos (move_to_stage "A" "Won" noon family).2 !! "D"
  = contatos family !! "D" ∧
  contatos (move_to_stage "W" "Won" noon two_cases).2 !! "X"
  = contatos two_cases !! "X".
Proof.
  split.
  - apply (transition_scope "A" "Won" noon family "D"); [discriminate|].
    right. left. exists (blank "Lost" None). split; [reflexivity|by right].
  - apply (transition_scope "W" "Won" noon two_cases "X"); [discriminate|].
    right. right. intros k [= <-] (r & Hr & Hk & Hx). simpl in Hr.
    rows_cases Hr; discriminate.
Defined.

(** X2: a transition never adds or removes a contact or a relationship
    row, and never changes a contact's name or phone numbers, whatever
    round trips fail. *)
Theorem transition_preserves_identity (id st : string) (now : clock)
    (s : store) :
  relacionamentos (move_to_stage id st now s).2 = relacionamentos s ∧
  ∀ x,
    match contatos s !! x, contatos (move_to_stage id st now s).2 !! x with
    | Some c, Some c' =>
        nome c' = nome c ∧ telefone_1 c' = telefone_1 c ∧
        telefone_2 c' = telefone_2 c ∧ telefone_3 c' = telefone_3 c ∧
        telefone_4 c' = telefone_4 c
    | None, None => True
    | _, _ => False
    end.
Proof.
  split; [apply move_to_stage_rels|]. intros x.
  destruct (move_to_stage_rows id st now s x)
    as [->|[(-> & c & -> & ->)|(_ & _ & k & c & _ & _ & -> & _ & ->)]];
    [|done..].
  by destruct (contatos s !! x).
Qed.

(** X3: the targets the detail view offers (the stage selector and the
    two quick buttons) are stages of the pipeline other than the current
    one; and a sequence of transitions whose targets are all stages of the
    pipeline keeps every stored status one of the five stages, whatever
    round trips fail. *)
Theorem statuses_stay_valid :
  (∀ current target,
     offered current target →
     target ∈ PIPELINE_STAGES ∧ Some target ≠ current) ∧
  (∀ ops s,
     valid_statuses s →
     Forall (λ op, op.1.2 ∈ PIPELINE_STAGES) ops →
     valid_statuses (run ops s)).
Proof.
  split.
  - intros current target [Hin|[[-> Hne]|[-> Hne]]].
    + unfold other_stages in Hin. by apply list_elem_of_filter in Hin as [? ?].
    + split; [|done]. unfold PIPELINE_STAGES. do 3 right. left.
    + split; [|done]. unfold PIPELINE_STAGES. do 4 right. left.
  - induction ops as [|[[id st] now] rest IH]; intros s Hv Hops; [done|].
    apply Forall_cons in Hops as [Hst Hrest]. simpl in Hst.
    simpl. apply IH; [|done]. clear IH Hrest.
    intros x c' Hc'.
    destruct (move_to_stage_rows id st now s x)
      as [H|[(-> & c & Hc & H)|(_ & _ & k & c & _ & _ & Hc & _ & H)]];
      rewrite H in Hc'.
    + by apply (Hv x).
    + injection Hc' as <-. by exists st.
    + injection Hc' as <-. exists "Lost". split; [done|].
      unfold PIPELINE_STAGES. do 4 right. left.
Qed.

Lemma statuses_stay_valid_witness :
  ("Attempted" ∈ PIPELINE_STAGES ∧ Some "Attempted" ≠ Some "New") ∧
  valid_statuses (run [("A", "Won", noon); ("B", "In Progress", noon)]
                      flaky).
Proof.
  split.
  - apply (proj1 statuses_stay_valid (Some "New") "Attempted").
    left. unfold other_stages. vm_compute. left.
  - apply (proj2 statuses_stay_valid).
    + intros x c Hc.
      destruct (decide (x = "A")) as [->|HA];
        [injection Hc as <-; exists "New"; split; [done|vm_compute; left]|].
      destruct (decide (x = "B")) as [->|HB];
        [injection Hc as <-; exists "Attempted"; split;
           [done|vm_compute; right; left]|].
      destruct (decide (x = "E")) as [->|HE];
        [injection Hc as <-; exists "New"; split; [done|vm_compute; left]|].
      unfold flaky in Hc. simpl in Hc.
      rewrite !lookup_insert_ne, lookup_empty in Hc by done. done.
    + repeat constructor.
Defined.

(** X4: [update_contact_notes] never raises; when its write succeeds the
    notes of an existing contact are exactly the given text (what was
    there before is replaced, not extended); it changes no status, no
    other contact and no relationship; when it returns [False] the table
    is as it was. *)
Theorem notes_replaced_verbatim (id text : string) (s : store) :
  ((update_contact_notes id text s).1 = Ret true ∨
   (update_contact_notes id text s).1 = Ret false) ∧
  relacionamentos (update_contact_notes id text s).2 = relacionamentos s ∧
  (∀ x, status_of (update_contact_notes id text s).2 x = status_of s x) ∧
  (∀ x, x ≠ id →
        contatos (update_contact_notes id text s).2 !! x = contatos s !! x) ∧
  ((update_contact_notes id text s).1 = Ret true →
   is_Some (contatos s !! id) →
   notes_of (update_contact_notes id text s).2 id = Some (Some text)) ∧
  ((update_contact_notes id text s).1 = Ret false →
   contatos (update_contact_notes id text s).2 = contatos s).
Proof.
  rewrite update_contact_notes_eq. cbv zeta.
  destruct (bool_decide (head (faults s) = Some true));
    cbn [fst snd contatos relacionamentos negb].
  { repeat split; auto; discriminate. }
  split; [by left|]. split; [done|]. split; [|split; [|split]].
  - intros x. unfold status_of. cbn [contatos].
    destruct (decide (x = id)) as [->|Hx].
    + rewrite lookup_alter_eq. by destruct (contatos s !! id).
    + by rewrite lookup_alter_ne.
  - intros x Hx. by rewrite lookup_alter_ne.
  - intros _ [c Hc]. unfold notes_of. cbn [contatos].
    by rewrite lookup_alter_eq, Hc.
  - discriminate.
Qed.

Lemma notes_replaced_verbatim_witness :
  notes_of (update_contact_notes "B" "called, no answer" family).2 "B"
  = Some (Some "called, no answer") ∧
  contatos (update_contact_notes "B" "x" (with_faults [true] family)).2
  = contatos family.
Proof.
  split.
  - apply (notes_replaced_verbatim "B" "called, no answer" family).
    + reflexivity.
    + by exists (blank "Attempted" (Some "foo")).
  - apply (notes_replaced_verbatim "B" "x" (with_faults [true] family)).
    reflexivity.
Defined.

(** X5: what a transition reports, for any target and whatever round
    trips fail.  A target other than Won never raises.  When the
    transition returns [False], the message is "Failed to update status",
    the status update was the only store call and the table is as it was.
    When it returns [True], the stored status of the contact, if the
    contact exists, is the target. *)
Theorem transition_reports (id st : string) (now : clock) (s : store) :
  (st ≠ "Won" → ∃ ok msg, (move_to_stage id st now s).1 = Ret (ok, msg)) ∧
  (∀ msg s',
     move_to_stage id st now s = (Ret (false, msg), s') →
     msg = FailedUpdate ∧ contatos s' = contatos s ∧
     calls s'
     = (calls s ++ [Update "contatos" (status_fields st now) "id" id])%list)
  ∧
  (∀ msg s',
     move_to_stage id st now s = (Ret (true, msg), s') →
     is_Some (contatos s !! id) →
     status_of s' id = Some (Some st)).
Proof.
  unfold move_to_stage, mbind, M_bind.
  destruct (decide (st = "Won")) as [->|Hst];
    rewrite update_contact_status_eq; cbv zeta;
    destruct (bool_decide (head (faults s) = Some true));
    unfold mret, M_ret; cbn [negb].
  - split; [done|]. split; [by intros msg s' [= <- <-]|discriminate].
  - set (s1 := MkStore _ _ _ _).
    pose proof (one_win_close_all_only_closes id now s1 id) as Hw.
    destruct (one_win_close_all id now s1) as [[n|e] s2]; simpl in Hw.
    + split; [done|]. split; [discriminate|].
      intros msg s' [= <- <-] [c Hc]. unfold status_of.
      destruct Hw as [->|(k & c' & _ & _ & Hne & _)]; [|done].
      subst s1. cbn [contatos]. by rewrite lookup_alter_eq, Hc.
    + split; [done|]. split; discriminate.
  - split; [eauto|]. split; [by intros msg s' [= <- <-]|discriminate].
  - split; [eauto|]. split; [discriminate|].
    intros msg s' [= <- <-] [c Hc]. unfold status_of. cbn [contatos].
    by rewrite lookup_alter_eq, Hc.
Qed.

Lemma transition_reports_witness :
  (∃ ok msg, (move_to_stage "A" "Attempted" noon flaky).1 = Ret (ok, msg)) ∧
  contatos (move_to_stage "A" "Won" noon (with_faults [true] flaky)).2
  = contatos flaky ∧
  status_of (move_to_stage "A" "Won" noon family).2 "A" = Some (Some "Won").
Proof.
  split; [|split].
  - apply (transition_reports "A" "Attempted" noon flaky). discriminate.
  - eapply (proj1 (proj2 (transition_reports "A" "Won" noon
                            (with_faults [true] flaky)))).
    reflexivity.
  - eapply (proj2 (proj2 (transition_reports "A" "Won" noon family))).
    + reflexivity.
    + by exists (blank "New" None).
Defined.

(** X6: a transition applied to an identity that is not in [contatos]
    writes nothing and still reports success: for a target other than Won
    whose round trip succeeds, the result is [True] with the message
    "Moved to <stage>" and the table is as it was. *)
Theorem missing_contact_reports_success (id st : string) (now : clock)
    (s : store) :
  contatos s !! id = None →
  st ≠ "Won" →
  head (faults s) ≠ Some true →
  (move_to_stage id st now s).1 = Ret (true, MovedTo st) ∧
  contatos (move_to_stage id st now s).2 = contatos s.
Proof.
  intros Hnone Hst Hok.
  unfold move_to_stage, mbind, M_bind.
  destruct (decide (st = "Won")); [done|].
  rewrite update_contact_status_eq. cbv zeta.
  rewrite bool_decide_eq_false_2 by done.
  unfold mret, M_ret. cbn [negb fst snd contatos]. split; [done|].
  apply map_eq. intros x. destruct (decide (x = id)) as [->|Hx].
  - by rewrite lookup_alter_eq, Hnone.
  - by rewrite lookup_alter_ne.
Qed.

Lemma missing_contact_reports_success_witness :
  (move_to_stage "Z" "Lost" noon family).1 = Ret (true, MovedTo "Lost") ∧
  contatos (move_to_stage "Z" "Lost" noon family).2 = contatos family.
Proof.
  apply (missing_contact_reports_success "Z" "Lost" noon family).
  - reflexivity.
  - discriminate.
  - discriminate.
Defined.

(** *** Cascades that close nobody *)

Lemma close_loop_self w now rows n s :
  (∀ x, x ∈ rows → x = w) → close_loop w now rows n s = (Ret n, s).
Proof.
  induction rows as [|y rows IH]; intros Hrows; [done|].
  rewrite close_loop_cons. unfold close_sibling.
  rewrite decide_True by (apply Hrows; by left).
  apply IH. intros x Hx. apply Hrows. by right.
Qed.

Lemma one_win_close_all_lone id now s :
  reliable s →
  (∀ k x, first_case s id = Some k → linked s k x → x = id) →
  (one_win_close_all id now s).1 = Ret 0.
Proof.
  intros Hrel Hlone.
  unfold one_win_close_all, mbind, M_bind, select_casos_of_contato.
  destruct (execute_reliable
              (Select "relacionamentos" "caso_id" "contato_id" id) s Hrel)
    as [-> Hrel1].
  cbn [relacionamentos].
  pose proof (Hlone) as Hlone'. unfold first_case in Hlone'.
  destruct (caso_id <$> filter _ (relacionamentos s)) as [|k ?]; [done|].
  unfold select_contatos_of_caso.
  match goal with |- context [execute ?c ?s0] =>
    destruct (execute_reliable c s0 Hrel1) as [-> _] end.
  cbn [relacionamentos]. fold (case_rows s k).
  rewrite close_loop_self; [done|].
  intros x Hx. apply (Hlone' k); [done|]. by apply elem_of_case_rows.
Qed.

(** X7: a contact with no other relative on its case wins alone: when the
    round trips succeed and every relationship row of the winner's first
    case names the winner (or the winner has no relationship row at all),
    the transition to Won returns [True] with a closed count of 0 and no
    other contact's row changes. *)
Theorem lone_relative_wins (id : string) (now : clock) (s : store) :
  reliable s →
  (∀ k x, first_case s id = Some k → linked s k x → x = id) →
  (move_to_stage id "Won" now s).1 = Ret (true, MarkedWon 0) ∧
  ∀ x, x ≠ id →
       contatos (move_to_stage id "Won" now s).2 !! x = contatos s !! x.
Proof.
  intros Hrel Hlone. split.
  - unfold move_to_stage, mbind, M_bind. rewrite decide_True by done.
    rewrite update_contact_status_eq. cbv zeta.
    assert (reliable (MkStore (contatos s) (relacionamentos s)
                              (tail (faults s)) (calls s)) ∧
            head (faults s) ≠ Some true) as [Hrel1 Hhead].
    { unfold reliable in *. cbn [faults].
      destruct (faults s) as [|b l]; [done|].
      apply Forall_cons in Hrel as [-> Hl]. done. }
    rewrite bool_decide_eq_false_2 by done. cbn [negb].
    set (s1 := MkStore _ _ _ _).
    pose proof (one_win_close_all_lone id now s1) as Hcas.
    destruct (one_win_close_all id now s1) as [o s2]. simpl in Hcas.
    rewrite Hcas; [done| |].
    + unfold reliable in *. by subst s1.
    + intros k x Hk Hl. by apply (Hlone k).
  - intros x Hx.
    destruct (move_to_stage_rows id "Won" now s x)
      as [H|[[-> _]|(_ & _ & k & c & Hk & Hl & _)]]; [done|done|].
    by destruct (Hx (Hlone k x Hk Hl)).
Qed.

Lemma lone_relative_wins_witness :
  (move_to_stage "S" "Won" noon lone).1 = Ret (true, MarkedWon 0).
Proof.
  apply (lone_relative_wins "S" noon lone).
  - constructor.
  - intros k x [= <-] (r & Hr & Hk & <-). simpl in Hr.
    rows_cases Hr; reflexivity.
Defined.

(** X8: the cascade is idempotent.  After a cascade that ran to its end,
    running it again for the same winner changes no row of [contatos],
    whatever round trips fail, and when it returns its closed count is 0. *)
Theorem cascade_idempotent (w : string) (now now' : clock) (s s1 : store)
    (n : nat) :
  one_win_close_all w now s = (Ret n, s1) →
  contatos (one_win_close_all w now' s1).2 = contatos s1 ∧
  ∀ m s2, one_win_close_all w now' s1 = (Ret m, s2) → m = 0.
Proof.
  intros Hrun.
  assert (relacionamentos s1 = relacionamentos s) as Hrels.
  { replace s1 with (one_win_close_all w now s).2 by by rewrite Hrun.
    apply one_win_close_all_rels. }
  destruct (one_win_close_all_cases w now' s1)
    as [(Hc & _ & [[e He]|[Hret _]])|(k & s0 & Hk & Hc0 & Hr0 & Hloop)].
  - split; [done|]. intros m s2 H. by rewrite H in He.
  - split; [done|]. intros m s2 H. rewrite H in Hret. by injection Hret.
  - rewrite (first_case_rels s s1) in Hk by done.
    rewrite (case_rows_rels s s1) in Hloop by done.
    assert (∀ x, contatos (close_loop w now' (case_rows s k) 0 s0).2 !! x
                 = contatos s0 !! x) as Hsame.
    { intros x.
      destruct (close_loop_only_closes w now' (case_rows s k) 0 s0 x)
        as [H|(c & Hc & Hnt & Hne & Hin & _)]; [done|].
      destruct (one_win_close_all_settles _ _ _ _ _ _ _ Hrun Hk Hin Hne)
        as (c' & Hc' & Ht).
      rewrite Hc0, Hc' in Hc. by injection Hc as <-. }
    rewrite Hloop. split.
    + rewrite <- Hc0. by apply map_eq.
    + intros m s2 Hret.
      destruct (close_loop_count _ _ _ _ _ _ _ Hret) as (L & _ & -> & Hmem).
      destruct L as [|x L]; [done|]. exfalso.
      destruct (proj1 (Hmem x)) as (c & c' & Hc & Hnt & Hc' & Hl);
        [by left|].
      apply Hnt. specialize (Hsame x). rewrite Hret in Hsame.
      simpl in Hsame. rewrite Hc, Hc' in Hsame. injection Hsame as ->.
      by right.
Qed.

Lemma cascade_idempotent_witness :
  contatos
    (one_win_close_all "A" noon (one_win_close_all "A" noon family).2).2
  = contatos (one_win_close_all "A" noon family).2.
Proof.
  apply (cascade_idempotent "A" noon noon family _ 1).
  reflexivity.
Defined.

(** *** The round trips of the cascade *)

Lemma close_sibling_calls w now x n s :
  ∃ new,
    calls (close_sibling w now x n s).2 = (calls s ++ new)%list ∧
    (∀ c, c ∈ new → is_write c = true →
          ∃ y, y ≠ w ∧ c = close_update now y) ∧
    (∀ m, (close_sibling w now x n s).1 = Ret m →
          m = n + length (filter (λ c, is_write c = true) new)).
Proof.
  unfold close_sibling. destruct (decide (x = w)) as [->|Hne].
  { exists []. simpl. rewrite app_nil_r. split; [done|].
    split; [by intros c ?%elem_of_nil|]. intros m [= <-]. lia. }
  unfold mbind, M_bind, select_contato_single.
  destruct (execute_eq (SelectSingle "contatos" "status" "id" x) s) as [r ->].
  assert (∀ c : call, c ∈ [SelectSingle "contatos" "status" "id" x] →
            is_write c = true → ∃ y, y ≠ w ∧ c = close_update now y) as Hread.
  { intros c Hc%list_elem_of_singleton. subst c. discriminate. }
  destruct r as [[]|e]; simpl;
    [|exists [SelectSingle "contatos" "status" "id" x]; by repeat split].
  destruct (contatos s !! x) as [c|] eqn:Hc; simpl;
    [|exists [SelectSingle "contatos" "status" "id" x]; by repeat split].
  rewrite project_status, lookup_insert_eq.
  assert (Py.truthy_row (<["status" := status c]> ∅) = true) as ->.
  { unfold Py.truthy_row. rewrite negb_true_iff, bool_decide_eq_false.
    apply insert_non_empty. }
  destruct (Py.not_in (status c) _).
  - unfold update_contato.
    match goal with |- context [execute ?c ?s0] =>
      destruct (execute_eq c s0) as [r ->] end.
    exists [SelectSingle "contatos" "status" "id" x; close_update now x].
    destruct r as [[]|e]; simpl; rewrite <- app_assoc;
      (split; [done|]); (split; [|intros m [= <-]; simpl; lia]);
      intros c' [->|Hc'%list_elem_of_singleton]%elem_of_cons;
      try subst c'; try discriminate; intros _; by exists x.
  - exists [SelectSingle "contatos" "status" "id" x]. simpl.
    split; [done|]. split; [done|]. intros m [= <-]. simpl. lia.
Qed.

Lemma close_loop_calls w now rows : ∀ n s,
  ∃ new,
    calls (close_loop w now rows n s).2 = (calls s ++ new)%list ∧
    (∀ c, c ∈ new → is_write c = true →
          ∃ y, y ≠ w ∧ c = close_update now y) ∧
    (∀ m, (close_loop w now rows n s).1 = Ret m →
          m = n + length (filter (λ c, is_write c = true) new)).
Proof.
  induction rows as [|x rows IH]; intros n s.
  { exists []. simpl. rewrite app_nil_r. split; [done|].
    split; [by intros c ?%elem_of_nil|]. intros m [= <-]. lia. }
  rewrite close_loop_cons.
  destruct (close_sibling_calls w now x n s) as (new1 & Hc1 & Hw1 & Hn1).
  destruct (close_sibling w now x n s) as [[n1|e] s1]; simpl in *.
  - destruct (IH n1 s1) as (new2 & Hc2 & Hw2 & Hn2).
    exists (new1 ++ new2)%list. rewrite Hc2, Hc1, app_assoc. split; [done|].
    split.
    + intros c [?|?]%elem_of_app; auto.
    + intros m Hm. rewrite filter_app, length_app.
      rewrite (Hn2 m Hm), (Hn1 n1 eq_refl). lia.
  - exists new1. by repeat split.
Qed.

(** X9: the cascade appends its round trips to the trace; the only writes
    among them are auto-close updates (status "Lost", the audit line,
    the timestamp), each on a contact other than the winner; and when the
    cascade returns, the count it returns is the number of updates it
    issued. *)
Theorem cascade_writes (w : string) (now : clock) (s : store) :
  ∃ new,
    calls (one_win_close_all w now s).2 = (calls s ++ new)%list ∧
    (∀ c, c ∈ new → is_write c = true →
          ∃ y, y ≠ w ∧ c = close_update now y) ∧
    (∀ n, (one_win_close_all w now s).1 = Ret n →
          n = length (filter (λ c, is_write c = true) new)).
Proof.
  unfold one_win_close_all, mbind, M_bind, select_casos_of_contato.
  destruct (execute_eq (Select "relacionamentos" "caso_id" "contato_id" w) s)
    as [r ->].
  set (q1 := Select "relacionamentos" "caso_id" "contato_id" w).
  destruct r as [[]|e]; simpl;
    [|exists [q1]; split; [done|]; split;
      [intros c Hc%list_elem_of_singleton; by subst c|done]].
  destruct (caso_id <$> filter _ (relacionamentos s)) as [|k ?]; simpl.
  { exists [q1]. split; [done|]. split;
      [intros c Hc%list_elem_of_singleton; by subst c|by intros n [= <-]]. }
  unfold select_contatos_of_caso.
  match goal with |- context [execute ?c ?s0] =>
    destruct (execute_eq c s0) as [r ->]; set (q2 := c) end.
  destruct r as [[]|e]; simpl.
  - match goal with |- context [close_loop w now ?rows 0 ?s0] =>
      destruct (close_loop_calls w now rows 0 s0) as (new & Hc & Hw & Hn) end.
    exists ([q1; q2] ++ new)%list.
    split; [rewrite Hc; simpl; by rewrite <- !app_assoc|]. split.
    + intros c [->|[->|?]%elem_of_cons]%elem_of_cons; try discriminate.
      by apply Hw.
    + intros n Hret. by rewrite (Hn n Hret).
  - exists [q1; q2]. rewrite <- app_assoc. split; [done|]. split; [|done].
    intros c [->|Hc%list_elem_of_singleton]%elem_of_cons;
      try subst c; discriminate.
Qed.

(** *** Stage counts *)

Lemma count_stages_reliable stages : ∀ counts s,
  reliable s →
  ∃ s',
    count_stages stages counts s
    = (Ret (foldl (λ m st, <[st := count_status s st]> m) counts stages), s')
    ∧ contatos s' = contatos s
    ∧ length (calls s') = length (calls s) + length stages.
Proof.
  induction stages as [|st stages IH]; intros counts s Hrel.
  { exists s. simpl. repeat split; lia. }
  simpl. unfold mbind, M_bind, count_contatos_by_status.
  destruct (execute_reliable (Select "contatos" "id" "status" st) s Hrel)
    as [-> Hrel1].
  destruct (IH (<[st := count_status s st]> counts) _ Hrel1)
    as (s' & Hrun & Hc & Hcalls).
  exists s'. unfold count_status in *. cbn [contatos calls] in *.
  rewrite Hrun. split; [done|]. split; [done|].
  rewrite Hcalls, length_app. simpl. lia.
Qed.

Lemma length_filter_or {A} (P Q : A → Prop) `{∀ x, Decision (P x)}
    `{∀ x, Decision (Q x)} (l : list A) :
  (∀ x, P x → Q x → False) →
  length (filter (λ x, P x ∨ Q x) l)
  = length (filter P l) + length (filter Q l).
Proof.
  intros Hdisj. induction l as [|a l IH]; [done|].
  rewrite !filter_cons.
  destruct (decide (P a)) as [HP|HP], (decide (Q a)) as [HQ|HQ].
  - destruct (Hdisj a HP HQ).
  - rewrite decide_True by auto. simpl. lia.
  - rewrite decide_True by auto. simpl. lia.
  - rewrite decide_False by (intros [|]; done). done.
Qed.

Lemma length_filter_ext {A} (P Q : A → Prop) `{∀ x, Decision (P x)}
    `{∀ x, Decision (Q x)} (l : list A) :
  (∀ x, P x ↔ Q x) → length (filter P l) = length (filter Q l).
Proof.
  intros Heq. induction l as [|a l IH]; [done|].
  rewrite !filter_cons.
  destruct (decide (P a)) as [HP|HP], (decide (Q a)) as [HQ|HQ];
    simpl; try lia; exfalso; apply Heq in HP || apply HP, Heq; done.
Qed.

Lemma sum_ext {A} (f g : A → nat) (l : list A) :
  (∀ x, x ∈ l → f x = g x) →
  foldr (λ x acc, f x + acc) 0 l = foldr (λ x acc, g x + acc) 0 l.
Proof.
  induction l as [|a l IH]; intros Hfg; [done|]. simpl.
  rewrite Hfg by by left. rewrite IH; [done|].
  intros x Hx. apply Hfg. by right.
Qed.

Lemma stages_NoDup : NoDup PIPELINE_STAGES.
Proof. apply (bool_decide_unpack _). by vm_compute. Qed.

(** Counting by stage adds up, over stages without repetition, to counting
    the rows whose status is one of them. *)
Lemma count_by_stage {A} (f : A → Py.value) (l : list A) (stages : list string) :
  NoDup stages →
  length (filter (λ a, f a ∈ (Some <$> stages)) l)
  = foldr (λ st acc, length (filter (λ a, f a = Some st) l) + acc) 0 stages.
Proof.
  induction 1 as [|st stages Hst Hnd IH]; simpl.
  { induction l as [|a l IHl]; [done|].
    rewrite filter_cons_False; [done|]. intros Hy. by apply elem_of_nil in Hy. }
  rewrite <- IH.
  rewrite <- (length_filter_or (λ a, f a = Some st)
               (λ a, f a ∈ (Some <$> stages))).
  - apply length_filter_ext. intros a. by rewrite elem_of_cons.
  - intros a Ha Hin. rewrite Ha in Hin.
    apply list_elem_of_fmap in Hin as (st' & [= <-] & Hin). done.
Qed.

(** X10: when the five counting round trips succeed, [get_stage_counts]
    returns a dict whose entry for each of the five stages is the number of
    contacts in that stage, the table is as it was, and five store calls
    were made.  The five numbers the sidebar shows add up to the number of
    contacts whose status is one of the five stages: a contact with a NULL
    or any other status is counted in no column. *)
Theorem stage_counts (s : store) :
  reliable s →
  ∃ counts s',
    get_stage_counts s = (Ret counts, s') ∧
    contatos s' = contatos s ∧
    length (calls s') = length (calls s) + 5 ∧
    (∀ stage, stage ∈ PIPELINE_STAGES →
              counts !! stage = Some (count_status s stage)) ∧
    foldr (λ stage acc, shown_count counts stage + acc) 0 PIPELINE_STAGES
    = count_staged s.
Proof.
  intros Hrel. unfold get_stage_counts.
  destruct (count_stages_reliable PIPELINE_STAGES ∅ s Hrel)
    as (s' & Hrun & Hc & Hcalls).
  eexists _, s'. split; [exact Hrun|]. split; [done|]. split; [done|].
  assert (∀ stage, stage ∈ PIPELINE_STAGES →
            foldl (λ (m : gmap string nat) st, <[st := count_status s st]> m)
                  ∅ PIPELINE_STAGES
            !! stage = Some (count_status s stage)) as Hlook.
  { intros stage Hin. unfold PIPELINE_STAGES in *. cbn [foldl].
    repeat (apply elem_of_cons in Hin as [->|Hin];
            [by rewrite ?lookup_insert_eq, ?lookup_insert_ne by done|]).
    by apply elem_of_nil in Hin. }
  split; [done|].
  unfold count_staged.
  rewrite (count_by_stage (λ kv, status kv.2)) by apply stages_NoDup.
  apply sum_ext. intros stage Hin. unfold shown_count.
  by rewrite Hlook.
Qed.

Lemma stage_counts_witness :
  ∃ counts s',
    get_stage_counts family = (Ret counts, s') ∧
    counts !! "Won" = Some 1.
Proof.
  destruct (stage_counts family) as (counts & s' & Hrun & _ & _ & Hlook & _).
  - constructor.
  - exists counts, s'. split; [done|].
    rewrite Hlook by (unfold PIPELINE_STAGES; do 3 right; left).
    reflexivity.
Defined.

(** *** A completed win *)

(** X18: a win that is reported settles the case: when the transition to
    Won of an existing contact returns [True], the winner is Won and every
    other contact linked to the winner's first case is Won or Lost. *)
Theorem reported_win_settles_case (id : string) (now : clock) (s s' : store)
    (msg : message) :
  move_to_stage id "Won" now s = (Ret (true, msg), s') →
  is_Some (contatos s !! id) →
  status_of s' id = Some (Some "Won") ∧
  ∀ k x, first_case s id = Some k → linked s k x →
         ∃ c, contatos s' !! x = Some c ∧ terminal (status c).
Proof.
  intros Hrun [c0 Hc0].
  destruct (move_to_stage_won_inv _ _ _ _ _ Hrun)
    as (n & s1 & -> & Hcas & Hc1 & Hr1).
  assert (contatos s' !! id
          = Some (apply_fields (status_fields "Won" now) c0)) as Hid.
  { replace s' with (one_win_close_all id now s1).2 by by rewrite Hcas.
    destruct (one_win_close_all_only_closes id now s1 id)
      as [->|(k & c & _ & _ & Hne & _)]; [|done].
    by rewrite Hc1, lookup_alter_eq, Hc0. }
  split; [unfold status_of; by rewrite Hid|].
  intros k x Hk Hl. destruct (decide (x = id)) as [->|Hx].
  - eexists. split; [exact Hid|]. by left.
  - apply (one_win_close_all_settles id now s1 n s' k x Hcas).
    + by rewrite (first_case_rels s s1).
    + rewrite (case_rows_rels s s1) by done. by apply elem_of_case_rows.
    + done.
Qed.

Lemma reported_win_settles_case_witness :
  ∃ c, contatos (move_to_stage "A" "Won" noon flaky_free).2 !! "E" = Some c ∧
       terminal (status c).
Proof.
  apply (proj2 (reported_win_settles_case "A" noon flaky_free
                  (move_to_stage "A" "Won" noon flaky_free).2 (MarkedWon 2)
                  eq_refl (ex_intro _ (blank "New" None) eq_refl)) "K" "E").
  - reflexivity.
  - exists (Relacionamento "r3" "K" "E" None). split; [|done].
    simpl. set_solver.
Defined.

End EngineSpec.

(** ** Properties of the card assembler *)

Module CardsSpec.
Import Cards.

(** *** Deduplication *)

Lemma first_row_cons rel rest cid :
  first_row (rel :: rest) cid =
  if decide (names cid rel) then Some rel else first_row rest cid.
Proof.
  unfold first_row. simpl. case_decide; [done|].
  by destruct (list_find (names cid) rest) as [[]|].
Qed.

Lemma first_row_elem_of rows cid rel :
  first_row rows cid = Some rel → rel ∈ rows ∧ names cid rel.
Proof.
  unfold first_row. destruct (list_find _ rows) as [[i r]|] eqn:Hf; [|done].
  intros [= <-]. apply list_find_Some in Hf as (Hi & Hn & _).
  split; [|done]. by eapply list_elem_of_lookup_2.
Qed.

Lemma first_row_exists rows cid rel :
  rel ∈ rows → names cid rel → is_Some (first_row rows cid).
Proof.
  intros Hin Hn. unfold first_row.
  destruct (list_find_elem_of (names cid) rows rel Hin Hn) as [[i r] ->].
  by exists r.
Qed.

Lemma assemble_acc rows : ∀ seen cards,
  assemble rows seen cards = (cards ++ assemble rows seen [])%list.
Proof.
  induction rows as [|rel rest IH]; intros seen cards; simpl.
  { by rewrite app_nil_r. }
  destruct (r_contatos rel) as [c|]; [|apply IH].
  case_decide; [apply IH|].
  rewrite IH, (IH _ [make_card rel c]). by rewrite <- app_assoc.
Qed.

(** The cards the loop adds are those of the contacts not seen before, each
    built from the first row that carries the contact. *)
Lemma assemble_spec rows : ∀ seen k,
  k ∈ assemble rows seen [] ↔
  (contato_id k ∉ seen) ∧
  ∃ rel c, first_row rows (contato_id k) = Some rel ∧
           r_contatos rel = Some c ∧ k = make_card rel c.
Proof.
  induction rows as [|rel rest IH]; intros seen k; simpl.
  { split; [by intros ?%elem_of_nil|]. by intros (_ & ? & ? & ? & _). }
  rewrite first_row_cons.
  destruct (r_contatos rel) as [c|] eqn:Hc; simpl.
  2: { rewrite IH, decide_False; [done|]. unfold names. by rewrite Hc. }
  assert (names (contato_id k) rel ↔ ct_id c = contato_id k) as Hn.
  { unfold names. rewrite Hc. simpl. split; congruence. }
  destruct (decide (ct_id c ∈ seen)) as [Hseen|Hnew].
  - rewrite IH. split; intros (Hk & Hex); (split; [done|]).
    + rewrite decide_False; [done|]. rewrite Hn. congruence.
    + rewrite decide_False in Hex; [done|]. rewrite Hn. congruence.
  - rewrite assemble_acc. simpl. rewrite elem_of_cons, IH. split.
    + intros [->|(Hk & Hex)].
      * split; [done|]. exists rel, c. rewrite decide_True; [done|].
        by apply Hn.
      * split; [intros Hs; apply Hk, elem_of_union; by right|].
        rewrite decide_False; [done|]. rewrite Hn.
        intros Heq. apply Hk, elem_of_union. left. by apply elem_of_singleton.
    + intros (Hk & rel0 & c0 & Hfirst & Hc0 & Hcard).
      destruct (decide (names (contato_id k) rel)) as [Heq|Heq].
      * left. injection Hfirst as <-. congruence.
      * right. split; [|eauto]. rewrite Hn in Heq.
        intros [Hs%elem_of_singleton|Hs]%elem_of_union; [by apply Heq|done].
Qed.

Lemma assemble_NoDup rows : ∀ seen,
  NoDup (contato_id <$> assemble rows seen []).
Proof.
  induction rows as [|rel rest IH]; intros seen; simpl; [constructor|].
  destruct (r_contatos rel) as [c|]; [|apply IH].
  case_decide; [apply IH|].
  rewrite assemble_acc. simpl. constructor; [|apply IH].
  intros (k & Hid & Hk)%list_elem_of_fmap.
  apply assemble_spec in Hk as [Hk _]. simpl in Hid.
  apply Hk, elem_of_union. left. by apply elem_of_singleton.
Qed.

Lemma filter_none {A} (P : A → Prop) `{∀ x, Decision (P x)} (l : list A) :
  (∀ y, y ∈ l → ¬ P y) → filter P l = [].
Proof.
  induction l as [|a l IH]; intros Hl; [done|].
  rewrite filter_cons_False; [|apply Hl; by left].
  apply IH. intros y Hy. apply Hl. by right.
Qed.

Lemma filter_unique {A B} `{EqDecision B} (f : A → B) (l : list A) x :
  NoDup (f <$> l) → x ∈ l → filter (λ y, f y = f x) l = [x].
Proof.
  induction l as [|a l IH]; simpl; intros Hnd Hx.
  { by apply elem_of_nil in Hx. }
  apply NoDup_cons in Hnd as [Ha Hnd].
  apply elem_of_cons in Hx as [->|Hx].
  - rewrite filter_cons_True by done. f_equal.
    apply filter_none. intros y Hy Heq.
    apply Ha. rewrite <- Heq. by apply list_elem_of_fmap_2.
  - rewrite filter_cons_False; [by apply IH|].
    intros Heq. apply Ha. rewrite Heq. by apply list_elem_of_fmap_2.
Qed.

(** C8: whatever rows the store returns, no two cards of the assembled
    list have the same contact, and a contact carried by some row of the
    response has exactly one card, the one built from the first row that
    carries it, with that row's case and relationship type. *)
Theorem card_assembly_dedup
    (query : string → option string → nat → option (list rel_row))
    (status : string) (limit : nat) (cidade_filter : option string) :
  let rows := response_rows query status limit cidade_filter in
  let cards := fetch_pipeline_cards query status limit cidade_filter in
  NoDup (contato_id <$> cards) ∧
  ∀ rel c,
    rel ∈ rows → r_contatos rel = Some c →
    ∃ first c0,
      first_row rows (ct_id c) = Some first ∧
      r_contatos first = Some c0 ∧ ct_id c0 = ct_id c ∧
      filter (λ k, contato_id k = ct_id c) cards = [make_card first c0] ∧
      caso_id (make_card first c0) = cs_id <$> r_casos first ∧
      tipo_parentesco (make_card first c0) = r_tipo_parentesco first.
Proof.
  intros rows cards. subst cards. unfold fetch_pipeline_cards. fold rows.
  split; [apply assemble_NoDup|].
  intros rel c Hrel Hc.
  destruct (first_row_exists rows (ct_id c) rel Hrel) as [first Hfirst].
  { unfold names. by rewrite Hc. }
  destruct (first_row_elem_of _ _ _ Hfirst) as [_ Hn]. unfold names in Hn.
  destruct (r_contatos first) as [c0|] eqn:Hc0; [|done].
  injection Hn as Hid. exists first, c0. repeat split; try done.
  rewrite <- Hid.
  apply (filter_unique contato_id _ (make_card first c0));
    [apply assemble_NoDup|].
  apply assemble_spec. split; [apply not_elem_of_empty|].
  exists first, c0. simpl. by rewrite Hid.
Qed.

Lemma card_assembly_dedup_witness :
  filter (λ k, contato_id k = "c1")
         (fetch_pipeline_cards sample_query "New" 15 None)
  = [Card "c1" (Some "Ana") "555-0101" "555-0101, 555-0102" (Some "New")
          None (Some "K1") (Some "Jose") (Some "Lisboa") "2024-04-30"
          (Some "son")].
Proof.
  destruct (proj2 (card_assembly_dedup sample_query "New" 15 None)
              (RelRow "r3" (Some "nephew") (Some "K2") (Some c1)
                 (Some (CasoRow "K2" (Some "Maria") (Some "Porto") None)))
              c1)
    as (first & c0 & Hfirst & Hc0 & _ & Hcards & _).
  - vm_compute. do 2 right. left.
  - reflexivity.
  - vm_compute in Hfirst. injection Hfirst as <-.
    injection Hc0 as <-. exact Hcards.
Defined.

(** *** Phones *)

Lemma lstrip_cases s :
  (lstrip s = "" ∧ all_space s = true) ∨
  (∃ a rest, lstrip s = String a rest ∧ is_space a = false ∧
             all_space s = false).
Proof.
  induction s as [|a s IH]; simpl; [by left|].
  destruct (is_space a) eqn:Ha; simpl; [done|].
  right. by exists a, s.
Qed.

Lemma rstrip_keeps a rest : is_space a = false → rstrip (String a rest) ≠ "".
Proof. intros Ha. simpl. rewrite Ha. by destruct (rstrip rest). Qed.

Lemma strip_empty s : strip s = "" ↔ all_space s = true.
Proof.
  unfold strip.
  destruct (lstrip_cases s) as [[-> ->]|(a & rest & -> & Ha & ->)]; [done|].
  split; [|done]. intros H. by apply rstrip_keeps in H.
Qed.

Lemma has_number_blank p : has_number p = false ↔ blank p.
Proof.
  destruct p as [s|]; simpl; [|done].
  rewrite <- strip_empty.
  destruct s as [|a s]; [done|]. simpl (truthy (String a s)).
  rewrite andb_true_l. by destruct (strip (String a s)).
Qed.

Lemma next_phone_blank phones default :
  Forall blank phones →
  next_phone phones default = default ∧
  filter (λ p, has_number p = true) phones = [].
Proof.
  induction 1 as [|p phones Hp _ [IH1 IH2]]; [done|].
  apply has_number_blank in Hp. simpl. rewrite Hp.
  rewrite filter_cons_False by congruence. done.
Qed.

Lemma next_phone_first phones default : ∀ i s,
  phones !! i = Some (Some s) → ¬ blank (Some s) →
  (∀ j p, j < i → phones !! j = Some p → blank p) →
  next_phone phones default = s.
Proof.
  induction phones as [|p phones IH]; intros i s Hi Hs Hbefore; [done|].
  destruct i as [|i]; simpl in *.
  - injection Hi as ->.
    destruct (has_number (Some s)) eqn:Hn; [done|].
    by apply has_number_blank in Hn.
  - assert (has_number p = false) as ->.
    { apply has_number_blank, (Hbefore 0); [lia|done]. }
    apply (IH i); [done..|].
    intros j q Hj Hq. apply (Hbefore (S j)); [lia|done].
Qed.

(** Either every slot is blank, or some slot is the first that is not. *)
Lemma first_number phones :
  Forall blank phones ∨
  ∃ i s, phones !! i = Some (Some s) ∧ ¬ blank (Some s) ∧
         ∀ j p, j < i → phones !! j = Some p → blank p.
Proof.
  induction phones as [|p phones IH]; [by left|].
  destruct (has_number p) eqn:Hp.
  - right. destruct p as [s|]; [|done]. exists 0, s.
    split; [done|]. split; [|intros; lia].
    intros Hb%has_number_blank. congruence.
  - apply has_number_blank in Hp.
    destruct IH as [IH|(i & s & Hi & Hs & Hbefore)]; [left; by constructor|].
    right. exists (S i), s. split; [done|]. split; [done|].
    intros [|j] q Hj Hq; simpl in Hq; [congruence|].
    apply (Hbefore j); [lia|done].
Qed.

(** C10: on the card built for a contact, either all four phone slots are
    blank (missing, empty or whitespace only), the primary phone is the
    literal "No phone" and the joined string of all phones is empty; or
    the primary phone is the content of the first slot, in the order 1 to
    4, that is not blank.  Every card of the assembled list is built this
    way ([assemble_spec]). *)
Theorem primary_phone_fallback (rel : rel_row) (contato : contato_row) :
  let card := make_card rel contato in
  let phones := [ct_telefone_1 contato; ct_telefone_2 contato;
                 ct_telefone_3 contato; ct_telefone_4 contato] in
  (Forall blank phones ∧
   phone_display card = "No phone" ∧ all_phones card = "")
  ∨
  (∃ i s, phones !! i = Some (Some s) ∧ ¬ blank (Some s) ∧
          (∀ j p, j < i → phones !! j = Some p → blank p) ∧
          phone_display card = s).
Proof.
  intros card phones.
  destruct (first_number phones) as [Hall|(i & s & Hi & Hs & Hbefore)].
  - left. split; [done|].
    destruct (next_phone_blank phones "No phone" Hall) as [Hnext Hfilter].
    split; [exact Hnext|].
    unfold card, make_card, all_phones, phones_of. fold phones.
    by rewrite Hfilter.
  - right. exists i, s. repeat split; try done.
    by apply (next_phone_first phones "No phone" i).
Qed.

(** *** Order and number of the cards *)

Lemma assemble_sublist rows : ∀ seen,
  contato_id <$> assemble rows seen [] `sublist_of` row_contacts rows.
Proof.
  induction rows as [|rel rest IH]; intros seen; simpl; [constructor|].
  unfold row_contacts. simpl.
  destruct (r_contatos rel) as [c|]; simpl; [|apply IH].
  case_decide; [apply sublist_cons, IH|].
  rewrite assemble_acc. simpl. apply sublist_skip, IH.
Qed.

Lemma row_contacts_length rows :
  (length (row_contacts rows) ≤ length rows)%nat.
Proof.
  unfold row_contacts. induction rows as [|rel rest IH]; csimpl; [done|].
  destruct (ct_id <$> r_contatos rel); csimpl; lia.
Qed.

Lemma elem_of_row_contacts rows cid :
  cid ∈ row_contacts rows ↔ ∃ rel, rel ∈ rows ∧ names cid rel.
Proof. unfold row_contacts, names. by rewrite list_elem_of_omap. Qed.

Lemma assemble_length rows : ∀ seen,
  (length (assemble rows seen []) ≤ length rows)%nat.
Proof.
  intros seen.
  rewrite <- (length_fmap contato_id).
  etrans; [apply sublist_length, assemble_sublist|apply row_contacts_length].
Qed.

Lemma assemble_wasted rows : ∀ seen,
  wasted rows seen → (length (assemble rows seen []) < length rows)%nat.
Proof.
  induction rows as [|rel0 rest IH]; intros seen (i & rel & c & Hi & Hc & Hw).
  { done. }
  simpl. pose proof (assemble_length rest seen) as Hle.
  destruct (r_contatos rel0) as [c0|] eqn:Hc0; [|lia].
  case_decide as Hseen; [lia|].
  rewrite assemble_acc. simpl. apply -> Nat.succ_lt_mono.
  apply IH. destruct i as [|i]; simpl in Hi.
  - injection Hi as <-. rewrite Hc0 in Hc. injection Hc as <-.
    destruct Hw as [?|(j & ? & Hj & _)]; [done|lia].
  - exists i, rel, c. split; [done|]. split; [done|].
    destruct Hw as [Hin|(j & rel' & Hj & Hrel' & Hn)].
    + left. apply elem_of_union. by right.
    + destruct j as [|j]; simpl in Hrel'.
      * injection Hrel' as <-. unfold names in Hn. rewrite Hc0 in Hn.
        injection Hn as Hn. left. apply elem_of_union. left.
        by apply elem_of_singleton.
      * right. exists j, rel'. split; [lia|done].
Qed.

(** X11: the cards come in the order of the rows of the response: the
    contacts of the cards are a subsequence of the contacts of the rows,
    they are the same contacts, and there are at most as many cards as
    rows. *)
Theorem cards_follow_rows
    (query : string → option string → nat → option (list rel_row))
    (status : string) (limit : nat) (cidade_filter : option string) :
  let rows := response_rows query status limit cidade_filter in
  let cards := fetch_pipeline_cards query status limit cidade_filter in
  contato_id <$> cards `sublist_of` row_contacts rows ∧
  (∀ cid, cid ∈ contato_id <$> cards ↔ cid ∈ row_contacts rows) ∧
  (length cards ≤ length rows)%nat.
Proof.
  intros rows cards. subst cards. unfold fetch_pipeline_cards. fold rows.
  split; [apply assemble_sublist|]. split; [|apply assemble_length].
  intros cid. rewrite elem_of_row_contacts, list_elem_of_fmap. split.
  - intros (k & -> & Hk). apply assemble_spec in Hk as (_ & rel & c & Hf & _).
    exists rel. by apply first_row_elem_of in Hf.
  - intros (rel & Hrel & Hn).
    destruct (first_row_exists rows cid rel Hrel Hn) as [first Hfirst].
    destruct (first_row_elem_of _ _ _ Hfirst) as [_ Hn'].
    unfold names in Hn'.
    destruct (r_contatos first) as [c0|] eqn:Hc0; [|done].
    injection Hn' as <-. exists (make_card first c0). split; [done|].
    apply assemble_spec. split; [apply not_elem_of_empty|].
    by exists first, c0.
Qed.

(** X12: the limit counts relationship rows, not contacts.  When the
    response has at most [limit] rows and two of them carry the same
    contact, there are fewer cards than [limit] and the column does not
    offer "Load More". *)
Theorem load_more_hidden_by_duplicates
    (query : string → option string → nat → option (list rel_row))
    (status : string) (limit : nat) (cidade_filter : option string) :
  let rows := response_rows query status limit cidade_filter in
  let cards := fetch_pipeline_cards query status limit cidade_filter in
  (length rows ≤ limit)%nat →
  (∃ i j ri rj cid,
     (i < j)%nat ∧ rows !! i = Some ri ∧ rows !! j = Some rj ∧
     names cid ri ∧ names cid rj) →
  load_more_offered cards limit = false.
Proof.
  intros rows cards Hlimit (i & j & ri & rj & cid & Hij & Hi & Hj & Hni & Hnj).
  unfold load_more_offered. apply Nat.leb_gt.
  eapply Nat.lt_le_trans; [|exact Hlimit].
  apply assemble_wasted. unfold names in Hnj.
  destruct (r_contatos rj) as [c|] eqn:Hc; [|done]. injection Hnj as <-.
  exists j, rj, c. split; [done|]. split; [done|]. right. by exists i, ri.
Qed.

Lemma load_more_hidden_by_duplicates_witness :
  load_more_offered (fetch_pipeline_cards sample_query "New" 3 None) 3
  = false.
Proof.
  apply (load_more_hidden_by_duplicates sample_query "New" 3 None).
  - simpl. lia.
  - eexists 0, 2, _, _, "c1". split; [lia|]. repeat split; reflexivity.
Defined.

(** *** Stripping and joining *)

Lemma lstrip_keeps a rest :
  is_space a = false → lstrip (String a rest) = String a rest.
Proof. intros Ha. simpl. by rewrite Ha. Qed.

Lemma rstrip_head a rest :
  is_space a = false → rstrip (String a rest) = String a (rstrip rest).
Proof. intros Ha. simpl. rewrite Ha. by destruct (rstrip rest). Qed.

Lemma rstrip_idemp s : rstrip (rstrip s) = rstrip s.
Proof.
  induction s as [|a s IH]; [done|]. simpl.
  destruct (rstrip s) as [|b kept] eqn:Hs.
  - destruct (is_space a) eqn:Ha; [done|]. simpl. by rewrite Ha.
  - change (rstrip (String a (String b kept))
            = String a (String b kept)).
    simpl. simpl in IH. by rewrite IH.
Qed.

Lemma strip_idemp s : strip (strip s) = strip s.
Proof.
  unfold strip.
  destruct (lstrip_cases s) as [[-> _]|(a & rest & -> & Ha & _)]; [done|].
  rewrite (rstrip_head a rest Ha), (lstrip_keeps _ _ Ha).
  rewrite <- (rstrip_head a rest Ha). apply rstrip_idemp.
Qed.

Lemma truthy_nonempty s : truthy s = true ↔ s ≠ "".
Proof. by destruct s. Qed.

Lemma has_number_strip s : has_number (Some (strip s)) = has_number (Some s).
Proof.
  simpl. rewrite strip_idemp.
  destruct s as [|a s]; [done|]. simpl (truthy (String a s)).
  by rewrite andb_true_l, andb_diag.
Qed.

Lemma append_empty_r s : s +:+ "" = s.
Proof.
  induction s as [|a s IH]; [done|].
  change (String a (s +:+ "") = String a s). by rewrite IH.
Qed.

Lemma join_cons sep s l : ∃ rest, join sep (s :: l) = s +:+ rest.
Proof.
  destruct l as [|s' l]; [exists ""; by rewrite append_empty_r|].
  by exists (sep +:+ join sep (s' :: l)).
Qed.

Lemma join_empty sep l :
  Forall (λ s, s ≠ "") l → join sep l = "" → l = [].
Proof.
  destruct l as [|s l]; [done|]. intros [Hs _]%Forall_cons Hj.
  destruct (join_cons sep s l) as [rest Hrest]. rewrite Hrest in Hj.
  by destruct s.
Qed.

Lemma filter_has_number_nil phones :
  filter (λ p, has_number p = true) phones = [] ↔ Forall blank phones.
Proof.
  induction phones as [|p phones IH]; [by split; [constructor|]|].
  rewrite Forall_cons, <- IH, <- has_number_blank.
  destruct (has_number p) eqn:Hp.
  - rewrite filter_cons_True by done. split; [discriminate|]. by intros [? _].
  - rewrite filter_cons_False by congruence. split; [by split|by intros [_ ?]].
Qed.

Lemma next_phone_head phones fallback :
  next_phone phones fallback
  = default fallback (head (Py.or_empty <$> filter (λ p, has_number p = true)
                                                      phones)).
Proof.
  induction phones as [|p phones IH]; [done|]. simpl.
  destruct (has_number p) eqn:Hp.
  - by rewrite filter_cons_True.
  - rewrite filter_cons_False by congruence. done.
Qed.

(** X13: on a card, the joined string of all phones is empty exactly when
    all four slots are blank; otherwise it begins with the primary phone. *)
Theorem all_phones_lists_numbers (rel : rel_row) (contato : contato_row) :
  let card := make_card rel contato in
  (all_phones card = "" ↔ Forall blank (phones_of contato)) ∧
  (Forall blank (phones_of contato) ∨
   ∃ rest, all_phones card = phone_display card +:+ rest).
Proof.
  intros card. unfold card, make_card, all_phones, phone_display.
  set (phones := phones_of contato).
  rewrite next_phone_head, <- filter_has_number_nil.
  set (valid := filter _ phones).
  assert (Forall (λ s, s ≠ "") (Py.or_empty <$> valid)) as Hne.
  { apply Forall_fmap, Forall_forall. intros p [Hp _]%list_elem_of_filter.
    destruct p as [s|]; [|done]. simpl in *.
    by destruct s. }
  split.
  - split.
    + intros Hj%join_empty; [|done]. by destruct valid.
    + by intros ->.
  - destruct valid as [|p valid']; [by left|right]. simpl.
    apply join_cons.
Qed.

End CardsSpec.

(** ** Properties of the relatives editor *)

Module LegacySpec.
Import Cards Legacy CardsSpec.

(** *** Phone numbers *)

Lemma valid_phones_strip (phones : list Py.value) :
  (λ p, strip (Py.or_empty p))
    <$> filter (λ p, has_number p = true) (fmap strip <$> phones)
  = (λ p, strip (Py.or_empty p)) <$> filter (λ p, has_number p = true) phones.
Proof.
  induction phones as [|p phones IH]; [done|].
  assert (has_number (strip <$> p) = has_number p) as Hn.
  { destruct p as [s|]; [apply has_number_strip|done]. }
  rewrite fmap_cons, !filter_cons, Hn. case_decide; [|exact IH].
  rewrite !fmap_cons. f_equal; [|exact IH].
  destruct p as [s|]; [apply strip_idemp|done].
Qed.

Lemma stripped_phones (phones : list Py.value) :
  Py.or_empty
    <$> filter (λ p, has_number p = true) (fmap strip <$> phones)
  = (λ p, strip (Py.or_empty p)) <$> filter (λ p, has_number p = true) phones.
Proof.
  induction phones as [|p phones IH]; [done|].
  assert (has_number (strip <$> p) = has_number p) as Hn.
  { destruct p as [s|]; [apply has_number_strip|done]. }
  rewrite fmap_cons, !filter_cons, Hn. case_decide; [|exact IH].
  rewrite !fmap_cons. f_equal; [|exact IH]. by destruct p.
Qed.

Lemma valid_phones_nonempty (phones : list Py.value) :
  Forall (λ s, s ≠ "")
         ((λ p, strip (Py.or_empty p))
            <$> filter (λ p, has_number p = true) phones).
Proof.
  apply Forall_fmap, Forall_forall. intros p [Hp _]%list_elem_of_filter.
  destruct p as [s|]; [|done]. simpl in *.
  apply andb_true_iff in Hp as [_ Hp]. by apply truthy_nonempty.
Qed.

(** X14: the phone string of the relatives editor is empty exactly when all
    four slots are blank; whitespace around the stored numbers does not
    change it; and it is what the pipeline card shows as all phones for the
    same contact with its numbers stripped. *)
Theorem aggregate_phone_numbers_strips (t1 t2 t3 t4 : Py.value) :
  (aggregate_phone_numbers t1 t2 t3 t4 = "" ↔ Forall blank [t1; t2; t3; t4]) ∧
  aggregate_phone_numbers (strip <$> t1) (strip <$> t2) (strip <$> t3)
                          (strip <$> t4)
  = aggregate_phone_numbers t1 t2 t3 t4 ∧
  (∀ rel id nome status notes,
     all_phones (make_card rel (ContatoRow id nome (strip <$> t1)
                                  (strip <$> t2) (strip <$> t3)
                                  (strip <$> t4) status notes))
     = aggregate_phone_numbers t1 t2 t3 t4).
Proof.
  unfold aggregate_phone_numbers. cbv zeta.
  pose proof (valid_phones_strip [t1; t2; t3; t4]) as Hstrip.
  split; [|split].
  - rewrite <- filter_has_number_nil. split.
    + intros Hj%join_empty; [|apply valid_phones_nonempty].
      by apply fmap_nil_inv in Hj.
    + by intros ->.
  - change [strip <$> t1; strip <$> t2; strip <$> t3; strip <$> t4]
      with (fmap (M := option) strip <$> [t1; t2; t3; t4]).
    f_equal. exact Hstrip.
  - intros rel id nome status notes.
    unfold make_card, all_phones, phones_of. cbn [ct_telefone_1 ct_telefone_2
      ct_telefone_3 ct_telefone_4].
    change [strip <$> t1; strip <$> t2; strip <$> t3; strip <$> t4]
      with (fmap (M := option) strip <$> [t1; t2; t3; t4]).
    f_equal. apply stripped_phones.
Qed.

End LegacySpec.

(** ** Properties of the editor's store access *)

Module EditorSpec.
Import Editor.

(** *** One update *)

Lemma update_contato_crm_fields_eq id c n s :
  update_contato_crm_fields id c n s =
  let failed := bool_decide (head (faults s) = Some true) in
  (negb failed,
   Db (if failed then contatos s else alter (saved c n) id (contatos s))
      (relacionamentos s) (tail (faults s))
      (calls s ++ [UpdateCrm id c n])).
Proof.
  unfold update_contato_crm_fields, execute.
  by destruct (faults s) as [|[] ?].
Qed.

Lemma pending_update original row w :
  pending original row = Some w →
  w = UpdateCrm (df_contato_id row) (df_contacted row)
                (Py.or_empty (df_notes row)).
Proof.
  unfold pending. destruct (original_row _ _); [|done].
  destruct (_ || _); [|done]. by intros [= <-].
Qed.

Lemma failures_step k s :
  failures (S k) s
  = (if bool_decide (head (faults s) = Some true) then 1 else 0)
    + length (filter (λ b, b = true) (take k (tail (faults s)))).
Proof.
  unfold failures. destruct (faults s) as [|[] l]; cbn [tail head].
  - by rewrite !take_nil.
  - change (take (S k) (true :: l)) with (true :: take k l).
    by rewrite filter_cons_True.
  - change (take (S k) (false :: l)) with (false :: take k l).
    by rewrite filter_cons_False.
Qed.

(** *** The loop over the edited rows *)

Lemma save_rows_cons row rest original n s :
  save_rows (row :: rest) original n s =
  match pending original row with
  | Some _ =>
      let r := update_contato_crm_fields (df_contato_id row) (df_contacted row)
                 (Py.or_empty (df_notes row)) s in
      save_rows rest original (if r.1 then S n else n) r.2
  | None => save_rows rest original n s
  end.
Proof.
  simpl. destruct (pending original row) as [w|] eqn:Hw; [|done].
  rewrite (pending_update _ _ _ Hw).
  by destruct (update_contato_crm_fields _ _ _ s).
Qed.

Lemma save_rows_trace edited original : ∀ n s,
  calls (save_rows edited original n s).2
  = (calls s ++ omap (pending original) edited)%list ∧
  relacionamentos (save_rows edited original n s).2 = relacionamentos s ∧
  (save_rows edited original n s).1
  + failures (length (omap (pending original) edited)) s
  = n + length (omap (pending original) edited).
Proof.
  induction edited as [|row rest IH]; intros n s.
  { simpl. rewrite app_nil_r. unfold failures. simpl. repeat split; lia. }
  rewrite save_rows_cons. csimpl.
  destruct (pending original row) as [w|] eqn:Hw; [|apply IH].
  rewrite (pending_update _ _ _ Hw).
  rewrite update_contato_crm_fields_eq. cbv zeta. cbn [fst snd].
  set (s' := Db _ _ _ _).
  destruct (IH (if negb (bool_decide (head (faults s) = Some true))
                then S n else n) s') as (Hc & Hr & Hn).
  rewrite Hc, Hr. subst s'. cbn [calls relacionamentos].
  split; [by rewrite <- app_assoc|]. split; [done|].
  simpl (length (_ :: _)). rewrite failures_step.
  unfold failures in Hn. cbn [faults] in Hn.
  destruct (bool_decide (head (faults s) = Some true)); simpl in *; lia.
Qed.

(** *** The change test *)

Lemma first_of_unique original id o o' :
  first_of original id o → first_of original id o' → o = o'.
Proof.
  intros (i & Hi & Hid & Hfirst) (i' & Hi' & Hid' & Hfirst').
  destruct (Nat.lt_trichotomy i i') as [Hlt|[Heq|Hlt]].
  - by destruct (Hfirst' i o Hi Hlt).
  - subst i'. rewrite Hi in Hi'. by injection Hi'.
  - by destruct (Hfirst i' o' Hi' Hlt).
Qed.

(** The row the code compares with is the first original row of the
    contact. *)
Lemma original_row_first original id o :
  original_row original id = Some o ↔ first_of original id o.
Proof.
  unfold original_row, first_of. split.
  - destruct (list_find _ original) as [[i r]|] eqn:Hf; [|done].
    intros [= <-]. apply list_find_Some in Hf. by exists i.
  - intros (i & Hi).
    by rewrite (proj2 (list_find_Some _ original i o) Hi).
Qed.

(** The code writes a row exactly when the row is a change, and what it
    writes is the row's update. *)
Lemma pending_changed original row :
  pending original row
  = if decide (changed original row) then Some (write_of row) else None.
Proof.
  unfold pending.
  destruct (original_row original (df_contato_id row)) as [o|] eqn:Ho.
  - apply original_row_first in Ho.
    destruct (decide (df_contacted row = df_contacted o)) as [Hc|Hc];
      destruct (decide (df_notes row = df_notes o)) as [Hn|Hn].
    + rewrite !bool_decide_eq_true_2 by done. cbn [negb orb].
      rewrite decide_False; [done|].
      intros (o' & Ho' & Hd).
      rewrite (first_of_unique _ _ _ _ Ho' Ho) in Hd. by destruct Hd.
    + rewrite bool_decide_eq_true_2, bool_decide_eq_false_2 by done.
      cbn [negb orb]. rewrite decide_True; [done|].
      exists o. split; [done|by right].
    + rewrite bool_decide_eq_false_2 by done. cbn [negb orb].
      rewrite decide_True; [done|].
      exists o. split; [done|by left].
    + rewrite bool_decide_eq_false_2 by done. cbn [negb orb].
      rewrite decide_True; [done|].
      exists o. split; [done|by left].
  - rewrite decide_False; [done|].
    intros (o & Ho' & _). apply original_row_first in Ho'. congruence.
Qed.

Lemma omap_pending (original edited : list df_row) :
  omap (pending original) edited
  = write_of <$> filter (changed original) edited.
Proof.
  induction edited as [|row rest IH]; [done|].
  csimpl. rewrite pending_changed, filter_cons.
  destruct (decide (changed original row)); csimpl; by rewrite IH.
Qed.

(** X15: [detect_and_save_changes] attempts, in the order of the edited
    rows, the update of every row that differs in [contacted] or in [notes]
    from the first original row of the same contact, and nothing else,
    whatever round trips fail: a failed update does not stop the later
    ones.  Each update carries the row's [contacted] and its notes.  The
    number reported is the number of those updates that did not fail, and
    the relationships are never changed. *)
Theorem editor_attempts_every_change (edited original : list df_row)
    (s : db) :
  let writes := write_of <$> filter (changed original) edited in
  calls (detect_and_save_changes (Some edited) (Some original) s).2
  = (calls s ++ writes)%list ∧
  relacionamentos (detect_and_save_changes (Some edited) (Some original) s).2
  = relacionamentos s ∧
  (detect_and_save_changes (Some edited) (Some original) s).1
  + failures (length writes) s
  = length writes.
Proof.
  intros writes. subst writes. rewrite <- omap_pending.
  assert (omap (pending original) edited = [] →
          calls s = (calls s ++ omap (pending original) edited)%list ∧
          relacionamentos s = relacionamentos s ∧
          0 + failures (length (omap (pending original) edited)) s
          = length (omap (pending original) edited)) as Hnone.
  { intros ->. rewrite app_nil_r. unfold failures. simpl.
    repeat split; lia. }
  unfold detect_and_save_changes.
  destruct edited as [|row rest]; [by apply Hnone|].
  destruct original as [|o original].
  - apply Hnone. clear. induction (row :: rest) as [|r l IH]; [done|].
    csimpl. unfold pending at 1, original_row. simpl. exact IH.
  - apply (save_rows_trace (row :: rest) (o :: original) 0 s).
Qed.


(** *** Stored values and the DataFrame *)

Lemma save_rows_idle edited original n s :
  Forall (λ row, pending original row = None) edited →
  save_rows edited original n s = (n, s).
Proof.
  induction 1 as [|row rest Hrow _ IH]; [done|].
  by rewrite save_rows_cons, Hrow.
Qed.

Lemma original_row_elem_of original id o :
  original_row original id = Some o → o ∈ original ∧ df_contato_id o = id.
Proof.
  unfold original_row.
  destruct (list_find _ original) as [[i r]|] eqn:Hf; [|done].
  intros [= <-]. apply list_find_Some in Hf as (Hi & Hid & _).
  split; [by eapply list_elem_of_lookup_2|done].
Qed.

(** A row of the frame prepared from a fetch shows what the store holds
    for its contact. *)
Lemma fetched_row caso s relatives s1 row :
  fetch_relatives_for_caso caso s = (Store.Ret relatives, s1) →
  row ∈ prepare_relatives_dataframe relatives →
  ∃ c, contatos s1 !! df_contato_id row = Some c ∧
       df_contacted row = default false (contacted c) ∧
       df_notes row = Some (Py.or_empty (notes c)).
Proof.
  unfold fetch_relatives_for_caso, execute.
  destruct (faults s) as [|[] ?]; intros [= <- <-];
    unfold prepare_relatives_dataframe;
    intros (rv & -> & Hrv)%list_elem_of_fmap;
    apply list_elem_of_omap in Hrv as (rel & _ & Hrel); cbn [contatos] in *;
    destruct (contatos s !! Store.contato_id rel) as [c|] eqn:Hc;
    try discriminate; injection Hrel as <-; by exists c.
Qed.

(** X16: showing the relatives of a case and saving the editor's content
    unchanged writes nothing: after a fetch that returned, saving the
    prepared frame against itself makes no store call and reports 0, also
    when a contact is listed twice. *)
Theorem editor_unchanged_writes_nothing (caso : string) (s s1 : db)
    (relatives : list relative) :
  fetch_relatives_for_caso caso s = (Store.Ret relatives, s1) →
  detect_and_save_changes (Some (prepare_relatives_dataframe relatives))
                          (Some (prepare_relatives_dataframe relatives)) s1
  = (0, s1).
Proof.
  intros Hfetch. set (df := prepare_relatives_dataframe relatives).
  assert (save_rows df df 0 s1 = (0, s1)) as Hsave.
  { apply save_rows_idle, Forall_forall. intros row Hrow.
    unfold pending.
    destruct (original_row df (df_contato_id row)) as [o|] eqn:Ho; [|done].
    apply original_row_elem_of in Ho as [Ho Hid].
    destruct (fetched_row _ _ _ _ _ Hfetch Hrow) as (c & Hc & -> & ->).
    destruct (fetched_row _ _ _ _ _ Hfetch Ho) as (c' & Hc' & -> & ->).
    rewrite Hid, Hc in Hc'. injection Hc' as <-.
    by rewrite !bool_decide_eq_true_2. }
  unfold detect_and_save_changes. by destruct df.
Qed.

Lemma editor_unchanged_writes_nothing_witness :
  ∃ relatives s1,
    fetch_relatives_for_caso "K" household = (Store.Ret relatives, s1) ∧
    detect_and_save_changes (Some (prepare_relatives_dataframe relatives))
                            (Some (prepare_relatives_dataframe relatives)) s1
    = (0, s1).
Proof.
  eexists _, _. split; [reflexivity|].
  apply (editor_unchanged_writes_nothing "K" household). reflexivity.
Defined.

Lemma pending_no_original row : pending [] row = None.
Proof. reflexivity. Qed.

Lemma save_rows_saved edited original : ∀ n s,
  reliable s →
  NoDup (df_contato_id <$> edited) →
  (save_rows edited original n s).1
  = n + length (omap (pending original) edited) ∧
  (∀ row, row ∈ edited → is_Some (pending original row) →
     contatos (save_rows edited original n s).2 !! df_contato_id row
     = saved (df_contacted row) (Py.or_empty (df_notes row))
         <$> contatos s !! df_contato_id row) ∧
  (∀ x, (∀ row, row ∈ edited → df_contato_id row = x →
                pending original row = None) →
        contatos (save_rows edited original n s).2 !! x = contatos s !! x).
Proof.
  induction edited as [|row rest IH]; intros n s Hrel Hnd.
  { simpl. split; [lia|]. split; [|done]. by intros row ?%elem_of_nil. }
  rewrite fmap_cons in Hnd. apply NoDup_cons in Hnd as [Hfresh Hnd].
  rewrite save_rows_cons. csimpl.
  destruct (pending original row) as [w|] eqn:Hw.
  - rewrite update_contato_crm_fields_eq. cbv zeta.
    assert (head (faults s) ≠ Some true ∧
            Forall (λ b, b = false) (tail (faults s))) as [Hhead Htail].
    { unfold reliable in Hrel. destruct (faults s) as [|b l]; [done|].
      apply Forall_cons in Hrel as [-> Hl]. done. }
    rewrite bool_decide_eq_false_2 by done. cbn [negb fst snd].
    set (s' := Db _ _ _ _).
    destruct (IH (S n) s' Htail Hnd) as (Hn & Hsaved & Hkept).
    split; [rewrite Hn; simpl; lia|]. split.
    + intros r [->|Hr]%elem_of_cons Hp.
      * rewrite Hkept; [subst s'; cbn [contatos]; by rewrite lookup_alter_eq|].
        intros r' Hr' Hid. destruct Hfresh. rewrite <- Hid.
        by apply list_elem_of_fmap_2.
      * rewrite (Hsaved r Hr Hp). subst s'. cbn [contatos].
        rewrite lookup_alter_ne; [done|].
        intros Hid. apply Hfresh. rewrite Hid. by apply list_elem_of_fmap_2.
    + intros x Hx. rewrite Hkept.
      * subst s'. cbn [contatos]. rewrite lookup_alter_ne; [done|].
        intros Hid. specialize (Hx row). rewrite Hx in Hw; [done|by left|done].
      * intros r Hr. apply Hx. by right.
  - destruct (IH n s Hrel Hnd) as (Hn & Hsaved & Hkept).
    split; [done|]. split.
    + intros r [->|Hr]%elem_of_cons Hp; [|by apply Hsaved].
      rewrite Hw in Hp. by destruct Hp.
    + intros x Hx. apply Hkept. intros r Hr. apply Hx. by right.
Qed.

(** X17: when the round trips succeed and no contact is listed twice in
    the edited frame, [detect_and_save_changes] reports as many changes as
    there are rows that differ in [contacted] or in [notes] from the first
    original row of their contact; afterwards the store holds, for the
    contact of each such row, the row's [contacted] and its notes (the
    empty string for cleared notes), with the contact's name and phones as
    before; and the row of every contact with no such edited row is as it
    was. *)
Theorem editor_saves_edits (edited original : list df_row) (s : db) :
  reliable s →
  NoDup (df_contato_id <$> edited) →
  (detect_and_save_changes (Some edited) (Some original) s).1
  = length (filter (changed original) edited) ∧
  (∀ row, row ∈ edited → changed original row →
     contatos (detect_and_save_changes (Some edited) (Some original) s).2
       !! df_contato_id row
     = saved (df_contacted row) (Py.or_empty (df_notes row))
         <$> contatos s !! df_contato_id row) ∧
  (∀ x, (∀ row, row ∈ edited → df_contato_id row = x →
                ¬ changed original row) →
        contatos (detect_and_save_changes (Some edited) (Some original) s).2
          !! x
        = contatos s !! x).
Proof.
  intros Hrel Hnd.
  assert (∀ row, changed original row → is_Some (pending original row))
    as Hsome.
  { intros row Hrow. rewrite pending_changed, decide_True by done.
    by eexists. }
  assert (∀ row, ¬ changed original row → pending original row = None)
    as Hnone.
  { intros row Hrow. by rewrite pending_changed, decide_False. }
  assert (length (omap (pending original) edited)
          = length (filter (changed original) edited)) as Hlen.
  { by rewrite omap_pending, length_fmap. }
  unfold detect_and_save_changes.
  destruct edited as [|row rest].
  { split; [done|]. split; [|done]. by intros r ?%elem_of_nil. }
  destruct original as [|o original].
  - cbn [fst snd]. split; [|split; [|done]].
    + rewrite <- Hlen. clear. induction (row :: rest) as [|r l IH]; [done|].
      csimpl. unfold pending at 1, original_row. simpl. exact IH.
    + intros r _ Hr. apply Hsome in Hr.
      rewrite pending_no_original in Hr. by destruct Hr.
  - destruct (save_rows_saved (row :: rest) (o :: original) 0 s Hrel Hnd)
      as (Hn & Hsaved & Hkept).
    split; [by rewrite Hn, Hlen|]. split.
    + intros r Hr Hch. by apply Hsaved, Hsome.
    + intros x Hx. apply Hkept. intros r Hr Hid. by apply Hnone, Hx.
Qed.

Lemma editor_saves_edits_witness :
  let original :=
    [DfRow "A" (Some "Ana") (Some "daughter") "555-0101" false
           (Some "left a message");
     DfRow "B" (Some "Rui") (Some "son") "" true (Some "")] in
  let edited :=
    [DfRow "A" (Some "Ana") (Some "daughter") "555-0101" true
           (Some "left a message");
     DfRow "B" (Some "Rui") (Some "son") "" true (Some "called back")] in
  (detect_and_save_changes (Some edited) (Some original) household).1 = 2 ∧
  contatos (detect_and_save_changes (Some edited) (Some original) household).2
    !! "A"
  = Some (Contato (Some "Ana") (Some "555-0101") None None None
                  (Some true) (Some "left a message")) ∧
  contatos (detect_and_save_changes (Some edited) (Some original) household).2
    !! "B"
  = Some (Contato (Some "Rui") None None None None
                  (Some true) (Some "called back")).
Proof.
  intros original edited.
  destruct (editor_saves_edits edited original household)
    as (Hn & Hsaved & _).
  - constructor.
  - apply (bool_decide_unpack _). by vm_compute.
  - split; [exact Hn|]. split.
    + apply (Hsaved (DfRow "A" (Some "Ana") (Some "daughter") "555-0101"
                           true (Some "left a message"))).
      * by left.
      * apply (bool_decide_unpack _). by vm_compute.
    + apply (Hsaved (DfRow "B" (Some "Rui") (Some "son") ""
                           true (Some "called back"))).
      * right. by left.
      * apply (bool_decide_unpack _). by vm_compute.
Defined.


End EditorSpec.

(** ** Properties of the master view *)

Module MasterSpec.
Import Master.

(** *** The options of the selector *)

Lemma dict_set_fresh d k v :
  k ∉ d.*1 → dict_set d k v = (d ++ [(k, v)])%list.
Proof.
  induction d as [|[k' v'] d IH]; intros Hk; [done|].
  simpl. rewrite fmap_cons, not_elem_of_cons in Hk. destruct Hk as [Hne Hk].
  rewrite decide_False by done. by rewrite IH.
Qed.

Lemma options_from d casos :
  NoDup (d.*1 ++ (id <$> casos)) →
  foldl (λ d c, dict_set d (id c) (label c)) d casos
  = (d ++ ((λ c, (id c, label c)) <$> casos))%list.
Proof.
  revert d. induction casos as [|c casos IH]; intros d Hnd.
  { simpl. by rewrite app_nil_r. }
  simpl. rewrite dict_set_fresh, IH.
  - by rewrite <- app_assoc.
  - rewrite fmap_app. simpl. rewrite <- app_assoc. exact Hnd.
  - apply NoDup_app in Hnd as (_ & Hd & _). intros Hin.
    apply (Hd _ Hin). by left.
Qed.

Lemma options_distinct casos :
  NoDup (id <$> casos) → options casos = (λ c, (id c, label c)) <$> casos.
Proof. intros Hnd. unfold options. by rewrite options_from. Qed.

Lemma last_char_app x y : y ≠ "" → last_char (x +:+ y) = last_char y.
Proof.
  intros Hy. induction x as [|a x IH]; [done|].
  change (String a x +:+ y) with (String a (x +:+ y)).
  simpl. destruct (x +:+ y) eqn:Hxy; [|done].
  destruct x; [by destruct y|done].
Qed.

Lemma append_nonempty x y : y ≠ "" → x +:+ y ≠ "".
Proof. intros Hy. by destruct x. Qed.

Lemma label_last c : last_char (label c) = Some (Ascii.ascii_of_nat 41).
Proof.
  unfold label.
  rewrite !last_char_app; [done|..]; repeat apply append_nonempty; done.
Qed.

Lemma label_shown c :
  Cards.truthy (label c) && negb (bool_decide (label c = placeholder)) = true.
Proof.
  pose proof (label_last c) as Hl.
  rewrite bool_decide_eq_false_2; [by destruct (label c)|].
  intros Heq. by rewrite Heq in Hl.
Qed.

(** Picking the entry of a record hands back the identity of the first
    record of the page that has the same label. *)
Lemma display_options_distinct casos :
  NoDup (id <$> casos) →
  display_options casos = placeholder :: (label <$> casos).
Proof.
  intros Hnd. unfold display_options.
  by rewrite options_distinct, <- list_fmap_compose.
Qed.

Lemma id_list_distinct casos :
  NoDup (id <$> casos) →
  id_list casos = None :: ((λ c, Some (id c)) <$> casos).
Proof.
  intros Hnd. unfold id_list.
  by rewrite options_distinct, <- list_fmap_compose.
Qed.

Lemma render_master_view_unfold casos choice :
  render_master_view casos choice
  = match display_options casos !! choice with
    | Some selected_display =>
        if Cards.truthy selected_display
           && negb (bool_decide (selected_display = placeholder))
        then
          match index (display_options casos) selected_display with
          | Some selected_idx => mjoin (id_list casos !! selected_idx)
          | None => None
          end
        else None
    | None => None
    end.
Proof.
  unfold render_master_view. destruct casos; [|done].
  by destruct choice as [|[|?]].
Qed.

Lemma pick_first casos j cj :
  NoDup (id <$> casos) →
  casos !! j = Some cj →
  ∃ i ci,
    list_find (λ c, label c = label cj) casos = Some (i, ci) ∧
    render_master_view casos (S j) = Some (id ci).
Proof.
  intros Hnd Hj.
  destruct (list_find_elem_of (λ c, label c = label cj) casos cj)
    as [[i ci] Hfind]; [by eapply list_elem_of_lookup_2|done|].
  exists i, ci. split; [done|].
  rewrite render_master_view_unfold.
  rewrite display_options_distinct, id_list_distinct by done.
  assert ((placeholder :: (label <$> casos)) !! S j = Some (label cj)) as ->.
  { change ((label <$> casos) !! j = Some (label cj)).
    by rewrite list_lookup_fmap, Hj. }
  rewrite label_shown.
  assert (index (placeholder :: (label <$> casos)) (label cj) = Some (S i))
    as ->.
  { unfold index. cbn [list_find]. rewrite decide_False.
    2: { intros Heq. pose proof (label_last cj) as Hl.
         by rewrite <- Heq in Hl. }
    rewrite list_find_fmap.
    change ((λ y, y = label cj) ∘ label) with (λ c, label c = label cj).
    by rewrite Hfind. }
  apply list_find_Some in Hfind as (Hi & _).
  change ((None :: ((λ c, Some (id c)) <$> casos)) !! S i)
    with (((λ c, Some (id c)) <$> casos) !! i).
  by rewrite list_lookup_fmap, Hi.
Qed.

(** X20: the selector of the master view maps the chosen label back to an
    identity through the first entry with that label.  On a page whose
    records have distinct identities: when the labels are distinct,
    picking a record's entry returns that record's identity; when an
    earlier record has the same name, city and date label as a later one,
    no choice returns the later record's identity. *)
Theorem selection_by_label (casos : list caso) :
  NoDup (id <$> casos) →
  (NoDup (label <$> casos) →
   ∀ j cj, casos !! j = Some cj →
           render_master_view casos (S j) = Some (id cj)) ∧
  (∀ i j ci cj,
     (i < j)%nat → casos !! i = Some ci → casos !! j = Some cj →
     label ci = label cj →
     ∀ choice, render_master_view casos choice ≠ Some (id cj)).
Proof.
  intros Hnd. split.
  - intros Hlabels j cj Hj.
    destruct (pick_first casos j cj Hnd Hj) as (i & ci & Hfind & ->).
    apply list_find_Some in Hfind as (Hi & Heq & _).
    assert (i = j) as ->; [|congruence].
    apply (NoDup_lookup (label <$> casos) i j (label cj) Hlabels);
      rewrite list_lookup_fmap.
    + rewrite Hi. simpl. by f_equal.
    + by rewrite Hj.
  - intros i j ci cj Hij Hi Hj Hlab [|j'] Hsel.
    { unfold render_master_view, display_options in Hsel.
      by destruct casos. }
    destruct (casos !! j') as [cj'|] eqn:Hj'.
    + destruct (pick_first casos j' cj' Hnd Hj') as (i' & ci' & Hfind & Hr).
      rewrite Hr in Hsel. injection Hsel as Hid.
      apply list_find_Some in Hfind as (Hi' & Heq & Hmin).
      assert (i' = j) as ->.
      { apply (NoDup_lookup (id <$> casos) i' j (id cj) Hnd);
          rewrite list_lookup_fmap.
        - rewrite Hi'. simpl. by f_equal.
        - by rewrite Hj. }
      rewrite Hj in Hi'. injection Hi' as <-.
      apply (Hmin i ci Hi Hij). congruence.
    + rewrite render_master_view_unfold in Hsel.
      rewrite display_options_distinct in Hsel by done.
      change ((placeholder :: (label <$> casos)) !! S j')
        with ((label <$> casos) !! j') in Hsel.
      by rewrite list_lookup_fmap, Hj' in Hsel.
Qed.

Lemma selection_by_label_witness :
  render_master_view twins 3 ≠ Some "k3".
Proof.
  apply (proj2 (selection_by_label twins
                  ltac:(apply (bool_decide_unpack _); by vm_compute))
           0%nat 2%nat
           (Caso "k1" (Some "Jose Silva") (Some "Lisboa")
                 (Some "2024-04-30T00:00:00"))
           (Caso "k3" (Some "Jose Silva") (Some "Lisboa")
                 (Some "2024-04-30"))).
  - lia.
  - reflexivity.
  - reflexivity.
  - reflexivity.
Defined.

End MasterSpec.

(** ** Properties of the pager *)

Module PagerSpec.
Import Pager.

Local Open Scope Z_scope.

(** C9: paging backward sets the offset to the maximum of zero and the
    offset minus the page size, which is never negative; paging forward
    adds the page size whatever the total number of records is, so that
    repeated paging forward takes the offset beyond any total. *)
Theorem pagination_offsets (ss : session_state) :
  page_offset (page_backward ss) = Z.max 0 (page_offset ss - PAGE_SIZE) ∧
  0 ≤ page_offset (page_backward ss) ∧
  page_offset (page_forward ss) = page_offset ss + PAGE_SIZE ∧
  (∀ n, page_offset (Nat.iter n page_forward ss)
        = page_offset ss + Z.of_nat n * PAGE_SIZE) ∧
  (∀ total_count, ∃ n,
     total_count < page_offset (Nat.iter n page_forward ss)).
Proof.
  assert (∀ n, page_offset (Nat.iter n page_forward ss)
               = page_offset ss + Z.of_nat n * PAGE_SIZE) as Hiter.
  { induction n as [|n IH]; [simpl; lia|].
    rewrite Nat.iter_succ. unfold page_forward at 1, pagination_controls.
    simpl. rewrite IH. lia. }
  assert (page_offset (page_backward ss)
          = Z.max 0 (page_offset ss - PAGE_SIZE)) as Hback.
  { unfold page_backward, pagination_controls, button, PAGE_SIZE. simpl.
    destruct (page_offset ss =? 0) eqn:H0; simpl; [|done].
    apply Z.eqb_eq in H0. rewrite H0. reflexivity. }
  split; [done|]. split; [rewrite Hback; lia|]. split; [done|].
  split; [done|].
  intros total. exists (Z.to_nat (Z.max 0 (total - page_offset ss)) + 1)%nat.
  rewrite Hiter. unfold PAGE_SIZE. lia.
Qed.

Lemma page_forward_offset ss :
  page_offset (page_forward ss) = page_offset ss + PAGE_SIZE.
Proof. reflexivity. Qed.

Lemma page_backward_offset ss :
  page_offset (page_backward ss) = Z.max 0 (page_offset ss - PAGE_SIZE).
Proof.
  unfold page_backward, pagination_controls, button, PAGE_SIZE. simpl.
  destruct (page_offset ss =? 0) eqn:H0; simpl; [|done].
  apply Z.eqb_eq in H0. by rewrite H0.
Qed.

(** X19: in a session that starts on the first page, whatever buttons are
    clicked, the offset is a multiple of the page size, never negative,
    and the page number shown is that multiple plus one.  From such a
    state "Next" shows the next page number, "Previous" the one before
    (page 1 stays page 1), and "Previous" after "Next" comes back to the
    same offset. *)
Theorem pages_are_whole (cs : list click) :
  ∃ k : nat,
    page_offset (after_clicks cs) = Z.of_nat k * PAGE_SIZE ∧
    current_page (after_clicks cs) = Z.of_nat k + 1 ∧
    current_page (page_forward (after_clicks cs))
    = current_page (after_clicks cs) + 1 ∧
    current_page (page_backward (after_clicks cs))
    = Z.max 1 (current_page (after_clicks cs) - 1) ∧
    page_offset (page_backward (page_forward (after_clicks cs)))
    = page_offset (after_clicks cs).
Proof.
  assert (∃ k : nat, page_offset (after_clicks cs) = Z.of_nat k * PAGE_SIZE)
    as [k Hk].
  { unfold after_clicks. induction cs as [|c cs IH] using rev_ind.
    { by exists 0%nat. }
    rewrite foldl_app. cbn [foldl]. destruct IH as [k Hk].
    destruct c; cbn [on_click].
    - exists (k - 1)%nat. rewrite page_backward_offset, Hk.
      unfold PAGE_SIZE. lia.
    - exists (S k). rewrite page_forward_offset, Hk. unfold PAGE_SIZE. lia.
    - by exists 0%nat. }
  exists k. split; [done|].
  unfold current_page.
  rewrite !page_backward_offset, !page_forward_offset, Hk. unfold PAGE_SIZE.
  replace (Z.of_nat k * 20 + 20) with ((Z.of_nat k + 1) * 20) by lia.
  rewrite !Z.div_mul by lia.
  split; [done|]. split; [done|]. split; [|lia].
  destruct k as [|k].
  - simpl. reflexivity.
  - replace (Z.max 0 (Z.of_nat (S k) * 20 - 20)) with (Z.of_nat k * 20) by lia.
    rewrite Z.div_mul by lia. lia.
Qed.

End PagerSpec.
